(** * Lazy texter: persona replies with a retrieval-augmented chat memory

    A shallow embedding of [app.py]: the text utilities the service
    relies on (Python's [str.strip], [str.split], [str.replace] and one
    [re.sub]), the prompt composer and response parser of
    [generate_reply], the memory writer [store_conversation_rag], the
    retrieval module [retrieve_relevant_context_rag], and the two routes
    [generate_single_reply] and [clear_memory].

    The module-level dictionaries [CHAT_COLLECTIONS] and
    [conversation_counter] are process-wide mutable state; they are
    threaded through a small state-and-exception monad.  The vector
    store, the generation API and the clock are external: a collection is
    the list of its records in insertion order, and similarity search,
    the HTTP call and the timestamp are inputs of each request. *)

From Stdlib Require Import NArith Ascii String Lia.
From stdpp Require Import base list gmap strings pretty.

Set Default Proof Using "Type".

(** ** Python strings

    A Python [str] is a sequence of Unicode code points.  Literals of the
    source are written with [u], which reads every character of an ASCII
    literal as its code point; the few characters that are not ASCII, and
    the double quote, are spliced in by number. *)

Definition u (s : string) : list N :=
  (λ a, N_of_ascii a) <$> list_ascii_of_string s.
Arguments u _ : simpl never.

Definition nl : list N := [10%N].
Definition dq : list N := [34%N].
Definition sq : list N := [39%N].
Definition emdash : list N := [8212%N].

(** Truth value of a string in a condition: [if s:] holds when [s] is
    not empty. *)
Definition truthy (s : list N) : bool :=
  match s with [] => false | _ :: _ => true end.

(** [str.isspace] on one code point, which is also what [\s] matches in
    a [str] pattern of [re]: the code points CPython lists as
    whitespace. *)
Definition isspace (c : N) : bool :=
  ((9 <=? c) && (c <=? 13) || (28 <=? c) && (c <=? 32)
   || (c =? 133) || (c =? 160) || (c =? 5760)
   || (8192 <=? c) && (c <=? 8202)
   || (c =? 8232) || (c =? 8233) || (c =? 8239) || (c =? 8287)
   || (c =? 12288))%N.

(** [s.strip()] *)
Fixpoint lstrip (s : list N) : list N :=
  match s with
  | [] => []
  | c :: r => if isspace c then lstrip r else s
  end.

Definition rstrip (s : list N) : list N := reverse (lstrip (reverse s)).

Definition strip (s : list N) : list N := rstrip (lstrip s).

(** [s.replace(c, '')] for a one-character [c]: every occurrence goes. *)
Definition replace_empty (c : N) (s : list N) : list N :=
  filter (λ x, x ≠ c) s.

(** [s.split()]: the maximal runs of characters that are not whitespace.
    [w] is the word being read, in reverse, when inside one. *)
Fixpoint split_from (w : option (list N)) (s : list N) : list (list N) :=
  match s with
  | [] => match w with Some x => [reverse x] | None => [] end
  | c :: r =>
      if isspace c
      then match w with
           | Some x => reverse x :: split_from None r
           | None => split_from None r
           end
      else split_from (Some (c :: default [] w)) r
  end.

Definition split (s : list N) : list (list N) := split_from None s.

(** Substring test, [needle in s]. *)
Fixpoint startswith (p s : list N) : bool :=
  match p, s with
  | [], _ => true
  | a :: p', b :: s' => (a =? b)%N && startswith p' s'
  | _ :: _, [] => false
  end.

Fixpoint contains (p s : list N) : bool :=
  startswith p s || match s with [] => false | _ :: r => contains p r end.

(** ** The quotation-mark pattern

    The pattern of the [re.sub] of line 197 reads: a whitespace
    character, a double quote, group 1 made of one to thirty characters
    other than the double quote, a double quote, a whitespace character.
    The replacement is a space, group 1 and a space.

    [quoted_tail n s] matches the end of the pattern at the head of [s]:
    up to [n] characters other than the double quote, then the closing
    quote and the whitespace, the way the backtracking matcher does: the
    repetition is greedy, and when what follows fails it gives back one
    character and tries the closing quote there.  It returns the
    characters taken by the repetition and what is left of [s] after the
    match. *)
Definition quote_close (s : list N) : option (list N * list N) :=
  match s with
  | q :: c :: r => if (q =? 34)%N && isspace c then Some ([], r) else None
  | _ => None
  end.

Fixpoint quoted_tail (n : nat) (s : list N) : option (list N * list N) :=
  match n, s with
  | S n', c :: r =>
      if (c =? 34)%N then quote_close s
      else match quoted_tail n' r with
           | Some (g, r') => Some (c :: g, r')
           | None => quote_close s
           end
  | _, _ => quote_close s
  end.

(** The whole pattern at the head of [s]: group 1 when it matches. *)
Definition match_quoted (s : list N) : option (list N) :=
  match s with
  | w :: q :: c :: r =>
      if isspace w && (q =? 34)%N && negb (c =? 34)%N
      then match quoted_tail 29 r with
           | Some (g, _) => Some (c :: g)
           | None => None
           end
      else None
  | _ => None
  end.

(** [re.sub] scans from the left; a match is replaced by a space, group
    1 and a space, and the scan resumes after the match, so matches never
    overlap.  A match is four characters longer than its group; [skip]
    counts the characters of the current match still to pass over. *)
Fixpoint sub_quoted_from (skip : nat) (s : list N) : list N :=
  match s with
  | [] => []
  | c :: r =>
      match skip with
      | S k => sub_quoted_from k r
      | O =>
          match match_quoted s with
          | Some g => u " " ++ g ++ u " " ++ sub_quoted_from (length g + 3) r
          | None => c :: sub_quoted_from 0 r
          end
      end
  end.

Definition sub_quoted (s : list N) : list N := sub_quoted_from 0 s.

(** Does some double quote of [s] have a whitespace character right
    behind it? *)
Fixpoint quote_then_space (s : list N) : bool :=
  match s with
  | q :: ((c :: _) as r) => ((q =? 34)%N && isspace c) || quote_then_space r
  | _ => false
  end.

(** Lines 195-197 of [generate_reply]. *)
Definition clean_text (generated_text : list N) : list N :=
  let cleaned_text := strip generated_text in
  let cleaned_text := replace_empty 95 (replace_empty 42 cleaned_text) in
  sub_quoted cleaned_text.

(** ** Data model *)

(** What [collection.add] is given for one exchange: the document is the
    user's message, the rest travels as metadata. *)
Record metadata := Metadata {
  md_response : list N;
  md_persona : list N;
  md_stance : list N;
  md_timestamp : list N
}.

Record conversation := Conversation {
  record_id : list N;
  record_document : list N;
  record_metadata : metadata
}.

(** The process-wide state.  [CHAT_COLLECTIONS] maps a chat id to its
    collection, given by its records in insertion order, the order in
    which [collection.get()] lists them.  [queries] is an observation
    added by the model: the similarity queries issued so far (chat,
    query text, number of results asked for), most recent last. *)
Record world := World {
  CHAT_COLLECTIONS : gmap (list N) (list conversation);
  conversation_counter : gmap (list N) nat;
  queries : list (list N * list N * nat)
}.

Definition initial_world : world :=
  {| CHAT_COLLECTIONS := <[u "Timo" := []]> (<[u "Shark" := []]> ∅);
     conversation_counter := <[u "Timo" := 0]> (<[u "Shark" := 0]> ∅);
     queries := [] |}.

(** Python dictionaries whose order is kept: [PERSONAS]. *)
Fixpoint dict_get {A} (d : list (list N * A)) (k : list N) : option A :=
  match d with
  | [] => None
  | (k', v) :: d' => if decide (k' = k) then Some v else dict_get d' k
  end.

Definition PERSONAS : list (list N * list N) :=
  [ (u "The Strategist",
     u "You are a highly composed, nerd-like professional, inspired by Gary Johnson from Hitman. You speak with quiet confidence, carry an intriguing aura, and balance intellect with subtle humor. You show great chemistry in conversation, sounding observant, analytical, and sharp"
       ++ emdash ++ u "always a step ahead without losing charm.");
    (u "The Visionary",
     u "You are Eddie Morra from Limitless when on NZT: supremely confident, witty, flirtatious, and razor-sharp. Your speech is smooth, fast-paced, and assertive, always laced with clever observations. You sound interesting and magnetic, as if you can read the world in detail and bend it to your will.");
    (u "The Rebel",
     u "You embody Tyler Durden from Fight Club: a dark philosopher and anarchist. You challenge consumerism and conformity, speaking with passion, madness, and a dangerous kind of charisma. Your tone is raw, rebellious, and existential, with a readiness to fight and a dedication to tearing down illusions.");
    (u "The Orator",
     u "You speak like an 18th-century Englishman" ++ emdash
       ++ u "rhetorical, poetic, and refined. Your language is ornate and formal, filled with metaphors and elevated diction. You sound weary yet profound, as though you are both observing and lamenting the world with philosophical eloquence.");
    (u "The Conversationalist",
     u "You are a modern Gen Z American, casual yet mature. Your tone is natural, conversational, and slightly witty, but not slang-heavy like rap. You mix straightforward realism with light humor, sounding relatable, grounded, and socially aware without trying too hard.") ].

(** ** Exceptions and the state monad *)

Inductive exn :=
  | KeyError (key : list N)
  | IndexError
  | AttributeError (msg : list N)
  | OtherError (msg : list N).

(** [str(e)]; for a [KeyError] it is the [repr] of the key, which for the
    keys met here is the key between single quotes. *)
Definition str_of_exn (e : exn) : list N :=
  match e with
  | KeyError k => sq ++ k ++ sq
  | IndexError => u "list index out of range"
  | AttributeError msg => msg
  | OtherError msg => msg
  end.

Inductive outcome (A : Type) :=
  | Ok (a : A)
  | Raise (e : exn).
Arguments Ok {A} a.
Arguments Raise {A} e.

Definition M (A : Type) : Type := world → outcome A * world.

#[global] Instance M_ret : MRet M := λ A a w, (Ok a, w).

#[global] Instance M_bind : MBind M := λ A B f m w,
  match m w with
  | (Ok a, w') => f a w'
  | (Raise e, w') => (Raise e, w')
  end.

Definition raise {A} (e : exn) : M A := λ w, (Raise e, w).

(** [try: m except Exception as e: h e].  What [m] did to the state
    before raising stays done. *)
Definition try_except {A} (m : M A) (h : exn → M A) : M A := λ w,
  match m w with
  | (Ok a, w') => (Ok a, w')
  | (Raise e, w') => h e w'
  end.

(** *** The dictionaries *)

(** [chat_id in CHAT_COLLECTIONS] *)
Definition in_CHAT_COLLECTIONS (chat_id : list N) : M bool := λ w,
  (Ok (bool_decide (is_Some (CHAT_COLLECTIONS w !! chat_id))), w).

(** [CHAT_COLLECTIONS[chat_id]]: the collection is handed around by its
    key. *)
Definition getitem_CHAT_COLLECTIONS (chat_id : list N) : M (list N) := λ w,
  match CHAT_COLLECTIONS w !! chat_id with
  | Some _ => (Ok chat_id, w)
  | None => (Raise (KeyError chat_id), w)
  end.

Definition getitem_conversation_counter (chat_id : list N) : M nat := λ w,
  match conversation_counter w !! chat_id with
  | Some n => (Ok n, w)
  | None => (Raise (KeyError chat_id), w)
  end.

Definition setitem_conversation_counter (chat_id : list N) (n : nat) : M unit :=
  λ w, (Ok (),
        {| CHAT_COLLECTIONS := CHAT_COLLECTIONS w;
           conversation_counter := <[chat_id := n]> (conversation_counter w);
           queries := queries w |}).

(** *** The vector store, as far as the service uses it *)

Definition contents (w : world) (collection : list N) : list conversation :=
  default [] (CHAT_COLLECTIONS w !! collection).

Definition set_contents (collection : list N) (l : list conversation) : M unit :=
  λ w, (Ok (),
        {| CHAT_COLLECTIONS := <[collection := l]> (CHAT_COLLECTIONS w);
           conversation_counter := conversation_counter w;
           queries := queries w |}).

(** [collection.count()] *)
Definition collection_count (collection : list N) : M nat := λ w,
  (Ok (length (contents w collection)), w).

(** [collection.get()] *)
Definition collection_get (collection : list N) : M (list conversation) := λ w,
  (Ok (contents w collection), w).

(** [collection.add(...)] of one record; the store ignores a record
    whose id it already holds. *)
Definition add_record (c : conversation) (l : list conversation) : list conversation :=
  if bool_decide (record_id c ∈ record_id <$> l) then l else l ++ [c].

Definition collection_add (collection : list N) (c : conversation) : M unit := λ w,
  set_contents collection (add_record c (contents w collection)) w.

(** [collection.delete(ids=...)] *)
Definition delete_records (ids : list (list N)) (l : list conversation) : list conversation :=
  filter (λ c, record_id c ∉ ids) l.

Definition collection_delete (collection : list N) (ids : list (list N)) : M unit := λ w,
  set_contents collection (delete_records ids (contents w collection)) w.

(** What a similarity query answers: one list of documents and one of
    metadata per query text. *)
Record query_result := QueryResult {
  documents : list (list (list N));
  metadatas : list (list metadata)
}.

(** What one request gets from outside the process: the clock, the
    similarity search of the vector store (over the collection's
    records, for a query text and a number of results) and the answer of
    the generation API to a payload, each of which may fail. *)
Record payload := Payload {
  contents_text : list N;
  systemInstruction_text : list N;
  temperature_tenths : nat;
  maxOutputTokens : nat
}.

Record part := Part { text : option (list N) }.
Record content_t := Content { parts : option (list part) }.
Record candidate := Candidate {
  finishReason : option (list N);
  content : option content_t
}.
Record api_data := ApiData { candidates : option (list candidate) }.

Record env := Env {
  now_isoformat : list N;
  similarity : list conversation → list N → nat → outcome query_result;
  requests_post : payload → outcome api_data
}.

(** [collection.query(query_texts=[text], n_results=n)] *)
Definition collection_query (E : env) (collection text : list N) (n : nat)
  : M query_result := λ w,
  (similarity E (contents w collection) text n,
   {| CHAT_COLLECTIONS := CHAT_COLLECTIONS w;
      conversation_counter := conversation_counter w;
      queries := queries w ++ [(collection, text, n)] |}).

(** ** The service *)

Section Service.

(** Fixed at start-up: the API key read from the environment, and the
    library's [str.upper], whose table of case mappings is not part of
    the program. *)
Variable GEMINI_API_KEY : list N.
Variable upper : list N → list N.

(** *** Memory writer *)

Definition mint_id (chat_id : list N) (n : nat) : list N :=
  chat_id ++ u "_" ++ u (pretty n).

Definition store_conversation_rag (E : env)
    (chat_id user_message persona stance response : list N) : M unit :=
  collection ← getitem_CHAT_COLLECTIONS chat_id;
  n ← getitem_conversation_counter chat_id;
  setitem_conversation_counter chat_id (n + 1);;
  n ← getitem_conversation_counter chat_id;
  let conv_id := mint_id chat_id n in
  collection_add collection
    {| record_id := conv_id;
       record_document := user_message;
       record_metadata := {| md_response := response;
                           md_persona := persona;
                           md_stance := stance;
                           md_timestamp := now_isoformat E |} |};;
  current_count ← collection_count collection;
  if bool_decide (20 < current_count) then
    all_data ← collection_get collection;
    let oldest_ids := take (current_count - 20) (record_id <$> all_data) in
    collection_delete collection oldest_ids
  else mret ().

(** *** Retrieval module *)

Definition context_header : list N :=
  nl ++ u "--- RELEVANT PAST CONVERSATIONS (Retrieved via Semantic Search) ---" ++ nl.

Definition context_footer : list N :=
  nl ++ u "--- END OF RETRIEVED CONTEXT ---" ++ nl
  ++ u "Note: These conversations were retrieved because they are semantically similar to the current message. Reference them naturally if relevant."
  ++ nl ++ nl.

Definition format_hit (i : nat) (doc : list N) (md : metadata) : list N :=
  nl ++ u (pretty i) ++ u ". Past question: " ++ dq ++ doc ++ dq ++ nl
  ++ u "   You (" ++ md_persona md ++ u ") replied: " ++ dq ++ md_response md ++ dq ++ nl.

Fixpoint format_hits (i : nat) (hits : list (list N * metadata)) : list N :=
  match hits with
  | [] => []
  | (doc, md) :: rest => format_hit i doc md ++ format_hits (S i) rest
  end.

Definition retrieve_relevant_context_rag (E : env)
    (chat_id current_message : list N) (top_k : nat) : M (list N) :=
  collection ← getitem_CHAT_COLLECTIONS chat_id;
  count ← collection_count collection;
  if bool_decide (count = 0) then mret []
  else
    try_except
      (count ← collection_count collection;
       results ← collection_query E collection current_message (min top_k count);
       match documents results with
       | [] => mret []
       | docs :: _ =>
           if bool_decide (docs = []) then mret []
           else match metadatas results with
                | [] => raise IndexError
                | mds :: _ =>
                    mret (context_header ++ format_hits 1 (zip docs mds)
                            ++ context_footer)
                end
       end)
      (λ _, mret []).

(** *** Prompt composer (lines 130-168 of [generate_reply]) *)

Definition task_instruction (response_hint : list N) : list N :=
  u "The user wants to reply with: '" ++ response_hint
  ++ u "'. Rephrase this response in your persona's voice and style while keeping the same core meaning. Make it sound natural and characteristic of your persona.".

Definition memory_note : list N :=
  u "Context from past conversations is shown above. Only reference it if directly relevant to answering the current question. If the current message is a new topic, respond independently.".

Definition under_30_words : list N :=
  u "Keep your response to 1-2 sentences maximum (under 30 words).".
Definition under_50_words : list N :=
  u "Keep your response to 2-3 sentences (under 50 words).".
Definition under_80_words : list N :=
  u "Keep your response concise (under 80 words).".

Definition length_instruction (input_words : nat) : list N :=
  if bool_decide (input_words < 15) then under_30_words
  else if bool_decide (input_words < 30) then under_50_words
  else under_80_words.

Definition format_directive : list N :=
  u " Write as if texting - use natural conversational language without asterisks, underscores, quotation marks for emphasis, or any special formatting. Output should be plain text ready to copy and paste directly into a chat.".

Definition user_message_with_context
    (user_message memory_context response_hint : list N) : list N :=
  if truthy response_hint then
    u "Incoming message: " ++ user_message ++ nl ++ nl
    ++ u "User's draft response: " ++ response_hint ++ nl ++ nl
    ++ task_instruction response_hint
  else if truthy memory_context then
    memory_context ++ u "Current message: " ++ user_message
  else user_message.

Definition memory_instruction (memory_context response_hint : list N) : list N :=
  if truthy response_hint then []
  else if truthy memory_context then memory_note
  else [].

Definition stance_instruction
    (user_message stance memory_context response_hint : list N) : list N :=
  let input_words := length (split user_message) in
  if truthy response_hint then
    length_instruction input_words ++ format_directive
  else
    u "Your response MUST " ++ upper stance ++ u " with the user's message. "
    ++ length_instruction input_words ++ format_directive ++ u " "
    ++ memory_instruction memory_context response_hint.

Definition system_prompt
    (system_instruction user_message stance memory_context response_hint : list N)
  : list N :=
  system_instruction ++ u " "
  ++ stance_instruction user_message stance memory_context response_hint.

Definition compose_payload
    (system_instruction user_message stance memory_context response_hint : list N)
  : payload :=
  {| contents_text :=
       user_message_with_context user_message memory_context response_hint;
     systemInstruction_text :=
       system_prompt system_instruction user_message stance memory_context
         response_hint;
     temperature_tenths := 7;
     maxOutputTokens := 2048 |}.

(** *** Generation client (lines 170-214 of [generate_reply]) *)

(** The dictionary [generate_reply] returns. *)
Inductive reply :=
  | Success (reply_text persona : list N)
  | Failure (error : list N).

Definition success (r : reply) : bool :=
  match r with Success _ _ => true | Failure _ => false end.

Definition read_response (persona_name : list N) (data : api_data) : reply :=
  match candidates data with
  | Some (candidate :: _) =>
      let finish_reason := default (u "UNKNOWN") (finishReason candidate) in
      let parts := default [] (content candidate ≫= parts) in
      let generated_text :=
        match parts with
        | p :: _ => default [] (text p)
        | [] => []
        end in
      if truthy generated_text then
        Success (clean_text generated_text) persona_name
      else if bool_decide (finish_reason = u "MAX_TOKENS") then
        Failure (u "Response cut off (MAX_TOKENS).")
      else if bool_decide (finish_reason = u "SAFETY") then
        Failure (u "Response blocked by safety filters.")
      else
        Failure (u "No text generated. Reason: " ++ finish_reason)
  | _ => Failure (u "No candidates in response.")
  end.

Definition generate_reply (E : env)
    (persona_name user_message stance chat_id response_hint : list N) : M reply :=
  system_instruction ←
    match dict_get PERSONAS persona_name with
    | Some t => mret t
    | None => raise (KeyError persona_name)
    end;
  memory_context ← retrieve_relevant_context_rag E chat_id user_message 3;
  let payload :=
    compose_payload system_instruction user_message stance memory_context
      response_hint in
  mret (match requests_post E payload with
        | Ok data => read_response persona_name data
        | Raise e => Failure (u "Generation Error: " ++ str_of_exn e)
        end).

(** *** Routes *)

(** The JSON bodies the two routes answer with. *)
Inductive json :=
  | JReply (r : reply)
  | JMessage (message : list N).

Record response := Response { status : nat; body : json }.

Definition error_response (status : nat) (error : list N) : response :=
  {| status := status; body := JReply (Failure error) |}.

(** The fields of the JSON body of [POST /generate], read as lines
    236-240 do: [data.get(key, default)], stripped for the message and
    the draft. *)
Definition req_message (data : gmap (list N) (list N)) : list N :=
  strip (default [] (data !! u "message")).
Definition req_persona (data : gmap (list N) (list N)) : list N :=
  default [] (data !! u "persona").
Definition req_stance (data : gmap (list N) (list N)) : list N :=
  default (u "Agree") (data !! u "stance").
Definition req_chat_id (data : gmap (list N) (list N)) : list N :=
  default (u "Timo") (data !! u "chat_id").
Definition req_response_hint (data : gmap (list N) (list N)) : list N :=
  strip (default [] (data !! u "response_hint")).

(** [POST /generate].  [data] is the parsed JSON body: [None] when there
    is none, else an object, whose fields are strings. *)
Definition generate_single_reply (E : env) (data : option (gmap (list N) (list N)))
  : M response :=
  if negb (truthy GEMINI_API_KEY) then mret (error_response 500 (u "API key missing"))
  else
    try_except
      (data ←
         match data with
         | Some d => mret d
         | None => raise (AttributeError (u "'NoneType' object has no attribute 'get'"))
         end;
       let user_message := req_message data in
       let persona_name := req_persona data in
       let stance := req_stance data in
       let chat_id := req_chat_id data in
       let response_hint := req_response_hint data in
       if negb (truthy user_message) then
         mret (error_response 400 (u "Message is required"))
       else if negb (bool_decide (is_Some (dict_get PERSONAS persona_name))) then
         mret (error_response 400 (u "Invalid persona"))
       else
         known ← in_CHAT_COLLECTIONS chat_id;
         if negb known then mret (error_response 400 (u "Invalid chat ID"))
         else
           result ← generate_reply E persona_name user_message stance chat_id
                      response_hint;
           match result with
           | Success reply_text _ =>
               store_conversation_rag E chat_id user_message persona_name stance
                 reply_text
           | Failure _ => mret ()
           end;;
           mret {| status := 200; body := JReply result |})
      (λ e, mret (error_response 500 (str_of_exn e))).

(** [DELETE /memory/<chat_id>] *)
Definition clear_memory (chat_id : list N) : M response :=
  known ← in_CHAT_COLLECTIONS chat_id;
  if negb known then mret (error_response 400 (u "Invalid chat ID"))
  else
    collection ← getitem_CHAT_COLLECTIONS chat_id;
    try_except
      (all_data ← collection_get collection;
       let ids := record_id <$> all_data in
       match ids with
       | _ :: _ => collection_delete collection ids
       | [] => mret ()
       end;;
       setitem_conversation_counter chat_id 0;;
       mret {| status := 200;
               body := JMessage (chat_id ++ u " memory cleared") |})
      (λ e, mret (error_response 500 (str_of_exn e))).

(** *** The service as a whole *)

(** The requests that touch the memory, and the service answering a
    sequence of them one after the other. *)
Inductive request :=
  | Generate (E : env) (data : option (gmap (list N) (list N)))
  | ClearMemory (chat_id : list N).

Definition serve (r : request) : M response :=
  match r with
  | Generate E data => generate_single_reply E data
  | ClearMemory chat_id => clear_memory chat_id
  end.

Fixpoint serve_all (rs : list request) (w : world)
  : list (outcome response) * world :=
  match rs with
  | [] => ([], w)
  | r :: rs' =>
      let (o, w1) := serve r w in
      let (os, w2) := serve_all rs' w1 in
      (o :: os, w2)
  end.

(** The worlds the service can be in: the one it starts in, and those
    it gets to by answering requests. *)
Inductive reachable : world → Prop :=
  | reachable_initial : reachable initial_world
  | reachable_serve r w : reachable w → reachable (serve r w).2.

End Service.

(** ** The read-only routes *)

(** [PERSONA_DESCRIPTIONS], the texts shown in the user interface. *)
Definition PERSONA_DESCRIPTIONS : list (list N * list N) :=
  [ (u "The Strategist",
     u "Inspired by Gary Johnson from Hitman : A step ahead, nerdy intellect, subtle humor.");
    (u "The Visionary",
     u "Inspired by Eddie Morra from Limitless : Charismatic, magnetic, confident, assertive.");
    (u "The Rebel",
     u "Inspired by Tyler Durden from Fight Club : Wild, dark idealist, anti-consumerism, fearless.");
    (u "The Orator",
     u "Inspired by 18th-century Englishmen : Rhetorical, poetic, eloquent, philosophical.");
    (u "The Conversationalist",
     u "Inspired by modern Gen Z : Casual, witty, relatable, socially aware.") ].

(** [GET /personas]: one entry, name and description, per key of
    [PERSONAS], in the order of the dictionary; a name without a
    description raises [KeyError]. *)
Fixpoint persona_entries (names : list (list N))
  : outcome (list (list N * list N)) :=
  match names with
  | [] => Ok []
  | name :: rest =>
      match dict_get PERSONA_DESCRIPTIONS name with
      | None => Raise (KeyError name)
      | Some description =>
          match persona_entries rest with
          | Ok entries => Ok ((name, description) :: entries)
          | Raise e => Raise e
          end
      end
  end.

Definition get_personas : outcome (list (list N * list N)) :=
  persona_entries (PERSONAS.*1).

(** One conversation as [GET /memory/<chat_id>] lists it: the stance is
    not among its fields. *)
Record memory_entry := MemoryEntry {
  entry_id : list N;
  entry_user_message : list N;
  entry_response : list N;
  entry_persona : list N;
  entry_timestamp : list N
}.

Inductive memory_json :=
  | JMemory (chat_id : list N) (conversations : list memory_entry) (count : nat)
  | JMemoryError (error : list N).

(** [GET /memory/<chat_id>]: the three parallel lists of
    [collection.get()] are zipped into the entries. *)
Definition get_memory (chat_id : list N) : M (nat * memory_json) :=
  known ← in_CHAT_COLLECTIONS chat_id;
  if negb known then mret (400, JMemoryError (u "Invalid chat ID"))
  else
    collection ← getitem_CHAT_COLLECTIONS chat_id;
    try_except
      (all_data ← collection_get collection;
       let documents := record_document <$> all_data in
       let metadatas := record_metadata <$> all_data in
       let ids := record_id <$> all_data in
       let conversations :=
         (λ x, {| entry_id := x.2;
                  entry_user_message := x.1.1;
                  entry_response := md_response x.1.2;
                  entry_persona := md_persona x.1.2;
                  entry_timestamp := md_timestamp x.1.2 |})
           <$> zip (zip documents metadatas) ids in
       mret (200, JMemory chat_id conversations (length conversations)))
      (λ e, mret (500, JMemoryError (str_of_exn e))).

(** ** Derived definitions used in the statements *)

(** *** What the memory writer leaves in a collection

    The record [store_conversation_rag] builds, and the cap of lines
    83-87 on the list of records. *)
Definition new_record (E : env)
    (chat_id user_message persona stance response : list N) (n : nat)
  : conversation :=
  {| record_id := mint_id chat_id n;
     record_document := user_message;
     record_metadata := {| md_response := response;
                           md_persona := persona;
                           md_stance := stance;
                           md_timestamp := now_isoformat E |} |}.

Definition enforce_cap (l : list conversation) : list conversation :=
  if bool_decide (20 < length l)
  then delete_records (take (length l - 20) (record_id <$> l)) l
  else l.

(** What [retrieve_relevant_context_rag] makes of the answer of the
    similarity search. *)
Definition context_of (o : outcome query_result) : list N :=
  match o with
  | Ok results =>
      match documents results, metadatas results with
      | [], _ => []
      | [] :: _, _ => []
      | _ :: _, [] => []
      | docs :: _, mds :: _ =>
          context_header ++ format_hits 1 (zip docs mds) ++ context_footer
      end
  | Raise _ => []
  end.

Definition log_query (q : list N * list N * nat) (w : world) : world :=
  {| CHAT_COLLECTIONS := CHAT_COLLECTIONS w;
     conversation_counter := conversation_counter w;
     queries := queries w ++ [q] |}.

(** The retrieval step on a collection holding [l]: the context it
    returns and the world it leaves. *)
Definition retrieval (E : env) (c msg : list N) (k : nat)
    (l : list conversation) (w : world) : list N * world :=
  match l with
  | [] => ([], w)
  | _ :: _ =>
      (context_of (similarity E l msg (min k (length l))),
       log_query (c, msg, min k (length l)) w)
  end.

(** The reply [generate_reply] makes of the upstream answer to a
    payload. *)
Definition reply_to (E : env) (persona_name : list N) (p : payload) : reply :=
  match requests_post E p with
  | Ok data => read_response persona_name data
  | Raise e => Failure (u "Generation Error: " ++ str_of_exn e)
  end.

(** The world after the memory writer has stored one exchange in a
    collection holding [l], the counter being at [n]. *)
Definition stored (E : env) (c msg p st resp : list N)
    (l : list conversation) (n : nat) (w : world) : world :=
  {| CHAT_COLLECTIONS :=
       <[c := enforce_cap (add_record (new_record E c msg p st resp (n + 1)) l)]>
         (CHAT_COLLECTIONS w);
     conversation_counter := <[c := n + 1]> (conversation_counter w);
     queries := queries w |}.

(** The world after [DELETE /memory/<chat_id>] on a known chat. *)
Definition cleared (c : list N) (w : world) : world :=
  {| CHAT_COLLECTIONS := <[c := []]> (CHAT_COLLECTIONS w);
     conversation_counter := <[c := 0]> (conversation_counter w);
     queries := queries w |}.

(** *** Invariants of the memory *)

(** Sequence numbers that go up strictly along the list. *)
Definition increasing (ns : list nat) : Prop :=
  ∀ i j a b, ns !! i = Some a → ns !! j = Some b → i < j → a < b.

(** The records of [l], in insertion order, carry the ids minted for
    chat [c] from increasing sequence numbers between 1 and [n]. *)
Definition numbered (c : list N) (n : nat) (l : list conversation) : Prop :=
  ∃ ns, record_id <$> l = mint_id c <$> ns
        ∧ increasing ns ∧ Forall (λ k, 1 ≤ k ≤ n) ns.

Definition chats : gset (list N) := {[u "Timo"; u "Shark"]}.

Definition world_ok (w : world) : Prop :=
  dom (CHAT_COLLECTIONS w) = chats
  ∧ dom (conversation_counter w) = chats
  ∧ ∀ c l n, CHAT_COLLECTIONS w !! c = Some l →
             conversation_counter w !! c = Some n →
             numbered c n l ∧ length l ≤ 20.

(** *** Exchanges along a run of the service

    What a request adds to the memory of chat [c], read off the answer
    it got: a generate request naming [c] that was answered with a reply
    adds the record of that exchange, whose id depends on its sequence
    number. *)
Definition exchange_of (c : list N) (r : request) (o : outcome response)
  : option (nat → conversation) :=
  match r, o with
  | Generate E (Some d), Ok resp =>
      match body resp with
      | JReply (Success reply_text _) =>
          if bool_decide (req_chat_id d = c)
          then Some (new_record E c (req_message d) (req_persona d)
                       (req_stance d) reply_text)
          else None
      | _ => None
      end
  | _, _ => None
  end.

Fixpoint exchanges (c : list N) (rs : list request)
    (os : list (outcome response)) : list (nat → conversation) :=
  match rs, os with
  | r :: rs', o :: os' => option_list (exchange_of c r o) ++ exchanges c rs' os'
  | _, _ => []
  end.

(** Whatever its sequence number, the record carries the id minted for
    chat [c] from that number. *)
Definition minted_for (c : list N) (f : nat → conversation) : Prop :=
  ∀ k, record_id (f k) = mint_id c k.

(** The records of successive exchanges, numbered from [k] on. *)
Fixpoint number_from (k : nat) (fs : list (nat → conversation))
  : list conversation :=
  match fs with
  | [] => []
  | f :: fs' => f k :: number_from (S k) fs'
  end.

(** Chat [c] holds the last twenty of the exchanges [acc], numbered
    from 1, and its counter stands at their number. *)
Definition chat_holds (c : list N) (acc : list (nat → conversation))
    (w : world) : Prop :=
  CHAT_COLLECTIONS w !! c
    = Some (drop (length acc - 20) (number_from 1 acc))
  ∧ conversation_counter w !! c = Some (length acc)
  ∧ Forall (minted_for c) acc.

(** The system prompts of rephrase mode: a persona text, a length
    directive and the format directive. *)
Definition rephrase_system_prompts : list (list N) :=
  p ← PERSONAS;
  l ← [under_30_words; under_50_words; under_80_words];
  [p.2 ++ u " " ++ l ++ format_directive].

(** *** Further notions for the statements *)

(** The entry [GET /memory] shows for a record. *)
Definition entry_of (c : conversation) : memory_entry :=
  {| entry_id := record_id c;
     entry_user_message := record_document c;
     entry_response := md_response (record_metadata c);
     entry_persona := md_persona (record_metadata c);
     entry_timestamp := md_timestamp (record_metadata c) |}.

(** The chat a request is about, when it names one. *)
Definition target (r : request) : option (list N) :=
  match r with
  | Generate _ (Some d) => Some (req_chat_id d)
  | Generate _ None => None
  | ClearMemory c => Some c
  end.


(** The text of the first part of a candidate, empty when there is
    none. *)
Definition first_text (cand : candidate) : list N :=
  match default [] (content cand ≫= parts) with
  | p :: _ => default [] (text p)
  | [] => []
  end.

(** An upstream call that fails. *)
Definition env_offline : env :=
  {| now_isoformat := u "2025-01-01T12:00:00";
     similarity := λ l q n, Ok {| documents := []; metadatas := [] |};
     requests_post := λ _, Raise (OtherError (u "connection refused")) |}.

(** ** Sample data for the examples *)

(** [str.upper] on ASCII text. *)
Definition ascii_upper (s : list N) : list N :=
  (λ c, if ((97 <=? c) && (c <=? 122))%N then (c - 32)%N else c) <$> s.

Definition sample_key : list N := u "sample-key".

(** An upstream answer carrying one text part. *)
Definition answer_text (t : list N) : api_data :=
  {| candidates :=
       Some [ {| finishReason := Some (u "STOP");
                 content := Some {| parts := Some [ {| text := Some t |} ] |} |} ] |}.


(** A similarity search that answers with the first records. *)
Definition first_hits (l : list conversation) (q : list N) (n : nat)
  : outcome query_result :=
  Ok {| documents := [record_document <$> take n l];
        metadatas := [record_metadata <$> take n l] |}.

(** A similarity search that fails. *)
Definition failing_search (l : list conversation) (q : list N) (n : nat)
  : outcome query_result :=
  Raise (OtherError (u "index unavailable")).

Definition sample_now : list N := u "2025-01-01T12:00:00".

Definition env_text (t : list N) : env :=
  {| now_isoformat := sample_now;
     similarity := first_hits;
     requests_post := λ _, Ok (answer_text t) |}.


Definition env_search_down : env :=
  {| now_isoformat := sample_now;
     similarity := failing_search;
     requests_post := λ _, Ok (answer_text (u "fine")) |}.

Definition json_body (fields : list (string * string)) : gmap (list N) (list N) :=
  list_to_map ((λ kv, (u kv.1, u kv.2)) <$> fields).

Definition pineapple : gmap (list N) (list N) :=
  json_body [("message", "Is pineapple on pizza good?");
             ("persona", "The Rebel");
             ("stance", "Disagree");
             ("chat_id", "Timo")]%string.

Definition rebel : list N := default [] (dict_get PERSONAS (u "The Rebel")).

(** A message of [n] words. *)
Definition n_words (n : nat) : list N := mjoin (replicate n (u "word ")).

(** A request that carries a draft answer. *)
Definition lunch_draft : gmap (list N) (list N) :=
  json_body [("message", "Want to grab lunch?");
             ("persona", "The Rebel");
             ("chat_id", "Timo");
             ("response_hint", "Sounds good")]%string.


(** The world after one exchange in the chat Timo, and the record it
    left there. *)
Definition world_after_one : world :=
  (serve sample_key ascii_upper
     (Generate (env_text (u "sure thing")) (Some pineapple)) initial_world).2.

Definition first_record : conversation :=
  new_record (env_text (u "sure thing")) (u "Timo")
    (u "Is pineapple on pizza good?") (u "The Rebel") (u "Disagree")
    (u "sure thing") 1.

(** Twenty-one requests of the same kind. *)
Definition twenty_one_requests : list request :=
  replicate 21 (Generate (env_text (u "sure thing")) (Some pineapple)).

(** ** Tactics *)

(** Unfolds the monad and the primitive operations on the state. *)
Ltac run_M :=
  unfold mbind, M_bind, mret, M_ret, raise, try_except,
    in_CHAT_COLLECTIONS, getitem_CHAT_COLLECTIONS,
    getitem_conversation_counter, setitem_conversation_counter,
    collection_count, collection_get, collection_add, collection_delete,
    collection_query, set_contents, contents; simpl.


(** ** Text utilities: lemmas *)

Lemma lstrip_split (s : list N) :
  ∃ a, s = a ++ lstrip s ∧ Forall (λ c, isspace c = true) a.
Proof.
  induction s as [|c r [a [Ha Hsp]]]; simpl.
  - exists []. split; [done | constructor].
  - destruct (isspace c) eqn:Hc.
    + exists (c :: a). split; [by rewrite Ha at 1 | by constructor].
    + exists []. split; [done | constructor].
Qed.

Lemma lstrip_head (s : list N) c r :
  lstrip s = c :: r → isspace c = false.
Proof.
  induction s as [|x s IH]; simpl; [done |].
  destruct (isspace x) eqn:Hx; [done |].
  intros [= -> ->]. done.
Qed.

Lemma rstrip_snoc (s : list N) c :
  rstrip (s ++ [c]) = if isspace c then rstrip s else s ++ [c].
Proof.
  unfold rstrip. rewrite reverse_snoc. simpl.
  destruct (isspace c); [done |].
  by rewrite reverse_cons, reverse_involutive.
Qed.

Lemma rstrip_split (s : list N) :
  ∃ b, s = rstrip s ++ b ∧ Forall (λ c, isspace c = true) b.
Proof.
  induction s as [|c s [b [Hb Hsp]]] using rev_ind.
  - exists []. split; [done | constructor].
  - rewrite rstrip_snoc. destruct (isspace c) eqn:Hc.
    + exists (b ++ [c]). split.
      * by rewrite Hb at 1; rewrite <- (assoc_L (++)).
      * apply Forall_app. split; [done | by repeat constructor].
    + exists []. split; [by rewrite app_nil_r | constructor].
Qed.

Lemma rstrip_last (s : list N) r c :
  rstrip s = r ++ [c] → isspace c = false.
Proof.
  induction s as [|x s IH] using rev_ind.
  - unfold rstrip. simpl. intros H. by destruct r.
  - rewrite rstrip_snoc. destruct (isspace x) eqn:Hx; [done |].
    intros H. apply app_inj_tail in H as [_ <-]. done.
Qed.

Lemma rstrip_head (s : list N) c r :
  rstrip s = c :: r → ∃ r', s = c :: r'.
Proof.
  destruct (rstrip_split s) as [b [Hb _]]. intros H.
  rewrite H in Hb. simpl in Hb. eauto.
Qed.

(** [strip] removes whitespace, and only whitespace, from both ends. *)
Lemma strip_spec (s : list N) :
  (∃ a b, s = a ++ strip s ++ b
          ∧ Forall (λ c, isspace c = true) a
          ∧ Forall (λ c, isspace c = true) b)
  ∧ (∀ c r, strip s = c :: r → isspace c = false)
  ∧ (∀ r c, strip s = r ++ [c] → isspace c = false).
Proof.
  unfold strip. split; [| split].
  - destruct (lstrip_split s) as [a [Ha Hsa]].
    destruct (rstrip_split (lstrip s)) as [b [Hb Hsb]].
    exists a, b. split; [| done]. by rewrite <- Hb.
  - intros c r H. destruct (rstrip_head _ _ _ H) as [r' Hr'].
    by apply lstrip_head in Hr'.
  - intros r c H. by apply rstrip_last in H.
Qed.

Lemma replace_empty_both (s : list N) :
  replace_empty 95 (replace_empty 42 s) = filter (λ c, c ≠ 95%N ∧ c ≠ 42%N) s.
Proof. unfold replace_empty. by rewrite list_filter_filter. Qed.

(** *** The quotation-mark pattern *)

Lemma quote_close_Some (s g r : list N) :
  quote_close s = Some (g, r) ↔
  g = [] ∧ ∃ c, s = 34%N :: c :: r ∧ isspace c = true.
Proof.
  unfold quote_close. split.
  - destruct s as [|q [|c r']]; try done.
    destruct (N.eqb_spec q 34) as [-> |]; simpl; [| done].
    destruct (isspace c) eqn:Hc; [| done].
    intros [= <- <-]. eauto.
  - intros [-> [c [-> Hc]]]. simpl. by rewrite Hc.
Qed.

Lemma quoted_tail_complete (g : list N) : ∀ n c rest,
  length g ≤ n → 34%N ∉ g → isspace c = true →
  quoted_tail n (g ++ 34%N :: c :: rest) = Some (g, rest).
Proof.
  induction g as [|a g IH]; intros n c rest Hlen Hq Hc; simpl.
  - assert (quote_close (34%N :: c :: rest) = Some ([], rest)) as Hcl
      by (apply quote_close_Some; eauto).
    destruct n; simpl; by rewrite ?Hcl.
  - destruct n as [|n]; simpl in Hlen; [lia |].
    apply not_elem_of_cons in Hq as [Ha Hq]. cbn [quoted_tail].
    destruct (N.eqb_spec a 34) as [-> |]; [done |].
    rewrite (IH n c rest); [done | lia | done | done].
Qed.

Lemma quoted_tail_sound (n : nat) : ∀ s g r,
  quoted_tail n s = Some (g, r) →
  ∃ c, s = g ++ 34%N :: c :: r ∧ isspace c = true
       ∧ length g ≤ n ∧ 34%N ∉ g.
Proof.
  assert (∀ k s g r, quote_close s = Some (g, r) →
            ∃ c, s = g ++ 34%N :: c :: r ∧ isspace c = true
                 ∧ length g ≤ k ∧ 34%N ∉ g) as Hclose.
  { intros k s g r [-> [c [-> Hc]]]%quote_close_Some.
    exists c. simpl. split_and!; [done | done | lia | apply not_elem_of_nil]. }
  induction n as [|n IH]; intros s g r H.
  - destruct s; simpl in H; by apply Hclose.
  - destruct s as [|c s]; simpl in H; [by apply Hclose |].
    destruct (N.eqb_spec c 34) as [-> | Hne]; [by apply Hclose |].
    destruct (quoted_tail n s) as [[g' r'] |] eqn:Ht.
    + injection H as <- <-.
      destruct (IH _ _ _ Ht) as [c' [-> [Hc' [Hlen Hq]]]].
      exists c'. simpl. split_and!; [done | done | lia |].
      apply not_elem_of_cons. split; [congruence | done].
    + by destruct s.
Qed.

(** The pattern matches at the head of [s] exactly when [s] starts with
    a whitespace character, a quote, one to thirty characters free of
    quotes, a quote and a whitespace character; group 1 is what lies
    between the quotes. *)
Lemma match_quoted_spec (s g : list N) :
  match_quoted s = Some g ↔
  ∃ w c rest, s = w :: 34%N :: g ++ 34%N :: c :: rest
              ∧ isspace w = true ∧ isspace c = true
              ∧ 1 ≤ length g ≤ 30 ∧ 34%N ∉ g.
Proof.
  unfold match_quoted. split.
  - destruct s as [|w [|q [|c r]]]; try done.
    destruct (isspace w) eqn:Hw; cbn [andb negb]; [| done].
    destruct (N.eqb_spec q 34) as [-> |]; cbn [andb negb]; [| done].
    destruct (N.eqb_spec c 34) as [| Hc]; cbn [andb negb]; [done |].
    destruct (quoted_tail 29 r) as [[g' r'] |] eqn:Ht; [| done].
    intros [= <-].
    destruct (quoted_tail_sound _ _ _ _ Ht) as [c' [-> [Hc' [Hlen Hq]]]].
    exists w, c', r'. simpl. split_and!; try done; try lia.
    apply not_elem_of_cons. split; [congruence | done].
  - intros [w [c [rest [-> [Hw [Hc [[Hlo Hhi] Hq]]]]]]].
    destruct g as [|a g]; cbn [length app] in *; [lia |].
    apply not_elem_of_cons in Hq as [Ha Hq].
    rewrite Hw. cbn [andb negb].
    destruct (N.eqb_spec a 34) as [-> |]; [done |]. cbn [andb negb].
    rewrite (quoted_tail_complete g 29 c rest); [done | lia | done | done].
Qed.

Lemma sub_quoted_from_skip (p rest : list N) :
  sub_quoted_from (length p) (p ++ rest) = sub_quoted_from 0 rest.
Proof. induction p as [|a p IH]; simpl; [by destruct rest | done]. Qed.

Lemma sub_quoted_from_0 (c : N) (r : list N) :
  sub_quoted_from 0 (c :: r)
  = match match_quoted (c :: r) with
    | Some g => u " " ++ g ++ u " " ++ sub_quoted_from (length g + 3) r
    | None => c :: sub_quoted_from 0 r
    end.
Proof. reflexivity. Qed.

(** A match is replaced by a space, the text between the quotes and a
    space, and the scan resumes behind the whitespace that closed it. *)
Lemma sub_quoted_match (w c : N) (g rest : list N) :
  isspace w = true → isspace c = true →
  1 ≤ length g ≤ 30 → 34%N ∉ g →
  sub_quoted (w :: 34%N :: g ++ 34%N :: c :: rest)
  = u " " ++ g ++ u " " ++ sub_quoted rest.
Proof.
  intros Hw Hc Hlen Hq. unfold sub_quoted.
  assert (match_quoted (w :: 34%N :: g ++ 34%N :: c :: rest) = Some g) as Hm.
  { apply match_quoted_spec. exists w, c, rest. done. }
  rewrite sub_quoted_from_0, Hm.
  replace (34%N :: g ++ 34%N :: c :: rest)
    with ((34%N :: g ++ [34%N; c]) ++ rest)
    by (simpl; by rewrite <- (assoc_L (++))).
  replace (length g + 3) with (length (34%N :: g ++ [34%N; c]))
    by (simpl; rewrite length_app; simpl; lia).
  by rewrite sub_quoted_from_skip.
Qed.

(** Where the pattern does not match, the character is kept and the scan
    moves on by one. *)
Lemma sub_quoted_nomatch (c : N) (r : list N) :
  match_quoted (c :: r) = None →
  sub_quoted (c :: r) = c :: sub_quoted r.
Proof. intros H. unfold sub_quoted. by rewrite sub_quoted_from_0, H. Qed.

Lemma quote_then_space_app (a b : list N) :
  quote_then_space b = true → quote_then_space (a ++ b) = true.
Proof.
  induction a as [|x a IH]; simpl; [done |]. intros H.
  destruct (a ++ b) eqn:E; [by destruct a, b | ].
  rewrite (IH H). apply orb_true_r.
Qed.

Lemma match_quoted_quote_then_space (s g : list N) :
  match_quoted s = Some g → quote_then_space s = true.
Proof.
  intros [w [c [rest [-> [_ [Hc _]]]]]]%match_quoted_spec.
  change (w :: 34%N :: g ++ 34%N :: c :: rest)
    with ([w; 34%N] ++ g ++ 34%N :: c :: rest).
  rewrite (assoc_L (++)). apply quote_then_space_app.
  simpl. by rewrite Hc.
Qed.

(** A text in which no double quote is followed by whitespace goes
    through the substitution unchanged. *)
Lemma sub_quoted_unchanged (s : list N) :
  quote_then_space s = false → sub_quoted s = s.
Proof.
  induction s as [|c r IH]; [done |]. intros H.
  destruct (match_quoted (c :: r)) as [g |] eqn:Hm.
  - apply match_quoted_quote_then_space in Hm. congruence.
  - rewrite (sub_quoted_nomatch _ _ Hm). f_equal. apply IH.
    destruct r as [|c' r']; [done |].
    cbn [quote_then_space] in H. by apply orb_false_iff in H as [_ H].
Qed.

(** *** Word count *)

Lemma split_from_snoc_space (s : list N) : ∀ w c,
  isspace c = true → split_from w (s ++ [c]) = split_from w s.
Proof.
  induction s as [|x s IH]; intros w c Hc; simpl.
  - rewrite Hc. by destruct w.
  - destruct (isspace x); [destruct w |]; by rewrite IH.
Qed.

Lemma split_lstrip (s : list N) : split (lstrip s) = split s.
Proof.
  unfold split. induction s as [|x s IH]; simpl; [done |].
  destruct (isspace x) eqn:Hx; [done |]. simpl. by rewrite Hx.
Qed.

Lemma split_rstrip (s : list N) : split (rstrip s) = split s.
Proof.
  unfold split. induction s as [|x s IH] using rev_ind; [done |].
  rewrite rstrip_snoc. destruct (isspace x) eqn:Hx; [| done].
  by rewrite split_from_snoc_space.
Qed.

(** Stripping a message does not change its words. *)
Lemma split_strip (s : list N) : split (strip s) = split s.
Proof. unfold strip. by rewrite split_rstrip, split_lstrip. Qed.

(** ** Post-processing of the generated text *)

(** C3, as the claim states it, fails: the quoted phrase of its example
    ends the text, so no whitespace follows the closing quote and the
    pattern does not match; the text comes back with its quotes. *)
Lemma clean_text_quoted_phrase_at_end :
  clean_text (u "he said " ++ dq ++ u "hello there" ++ dq)
    = u "he said " ++ dq ++ u "hello there" ++ dq
  ∧ clean_text (u "he said " ++ dq ++ u "hello there" ++ dq)
    ≠ u "he said hello there".
Proof. split; [reflexivity | discriminate]. Qed.

(** C3, amended: post-processing strips the whitespace at both ends,
    then deletes every asterisk and underscore and nothing else, then
    scans the text from the left and replaces each whitespace character,
    double quote, one to thirty characters other than the double quote,
    double quote, whitespace character by a space, the text between the
    quotes and a space, resuming behind the match.  A text in which no
    double quote is followed by whitespace is left as it is, so a quoted
    phrase that ends the text keeps its quotes.  The bold and italic
    markers of the examples go; the quoted phrase loses its quotes when
    the text goes on after it. *)
Theorem clean_text_spec :
  (∀ s, clean_text s
        = sub_quoted (filter (λ c, c ≠ 95%N ∧ c ≠ 42%N) (strip s)))
  ∧ (∀ s, (∃ a b, s = a ++ strip s ++ b
                  ∧ Forall (λ c, isspace c = true) a
                  ∧ Forall (λ c, isspace c = true) b)
          ∧ (∀ c r, strip s = c :: r → isspace c = false)
          ∧ (∀ r c, strip s = r ++ [c] → isspace c = false))
  ∧ (∀ w c g rest,
       isspace w = true → isspace c = true →
       1 ≤ length g ≤ 30 → 34%N ∉ g →
       sub_quoted (w :: 34%N :: g ++ 34%N :: c :: rest)
       = u " " ++ g ++ u " " ++ sub_quoted rest)
  ∧ (∀ c r,
       (¬ ∃ w c' g rest, c :: r = w :: 34%N :: g ++ 34%N :: c' :: rest
                         ∧ isspace w = true ∧ isspace c' = true
                         ∧ 1 ≤ length g ≤ 30 ∧ 34%N ∉ g) →
       sub_quoted (c :: r) = c :: sub_quoted r)
  ∧ (∀ s, quote_then_space s = false → sub_quoted s = s)
  ∧ clean_text (u "**bold**") = u "bold"
  ∧ clean_text (u "_italic_") = u "italic"
  ∧ clean_text (u "he said " ++ dq ++ u "hello there" ++ dq)
    = u "he said " ++ dq ++ u "hello there" ++ dq
  ∧ clean_text (u "he said " ++ dq ++ u "hello there" ++ dq ++ u " ok")
    = u "he said hello there ok"
  ∧ clean_text (u "a " ++ dq ++ u "b" ++ dq ++ u " " ++ dq ++ u "c" ++ dq ++ u " d")
    = u "a b " ++ dq ++ u "c" ++ dq ++ u " d".
Proof.
  split_and!; try reflexivity.
  - intros s. unfold clean_text. by rewrite replace_empty_both.
  - apply strip_spec.
  - apply sub_quoted_match.
  - intros c r Hno. apply sub_quoted_nomatch.
    destruct (match_quoted (c :: r)) as [g |] eqn:Hm; [| done].
    destruct Hno. apply match_quoted_spec in Hm as [w [c' [rest H]]].
    by exists w, c', g, rest.
  - apply sub_quoted_unchanged.
Qed.

Lemma clean_text_spec_witness :
  sub_quoted (32%N :: 34%N :: u "so called" ++ 34%N :: 32%N :: u "friend")
  = u " " ++ u "so called" ++ u " " ++ sub_quoted (u "friend").
Proof.
  destruct clean_text_spec as (_ & _ & Hmatch & _).
  apply (Hmatch 32%N 32%N (u "so called") (u "friend")).
  - reflexivity.
  - reflexivity.
  - vm_compute. lia.
  - vm_compute. intros H.
    repeat (apply elem_of_cons in H as [H | H]; [discriminate |]).
    by apply elem_of_nil in H.
Defined.

(** ** The length directive *)

Section Prompt.

Variable upper : list N → list N.

Lemma system_prompt_shape (si msg st mc hint : list N) :
  system_prompt upper si msg st mc hint
  = si ++ u " "
    ++ (if truthy hint then []
        else u "Your response MUST " ++ upper st ++ u " with the user's message. ")
    ++ length_instruction (length (split msg)) ++ format_directive
    ++ (if truthy hint then [] else u " " ++ memory_instruction mc hint).
Proof.
  unfold system_prompt, stance_instruction.
  destruct (truthy hint).
  - by rewrite app_nil_l, app_nil_r.
  - by rewrite <- !(assoc_L (++)).
Qed.

Lemma length_instruction_tiers (n : nat) :
  n < 15 ∧ length_instruction n = under_30_words
  ∨ 15 ≤ n < 30 ∧ length_instruction n = under_50_words
  ∨ 30 ≤ n ∧ length_instruction n = under_80_words.
Proof.
  unfold length_instruction.
  repeat case_bool_decide; [left | right; left | right; right]; split; (lia || done).
Qed.

(** C2: the system prompt carries, in both modes, the length directive
    chosen by the number of whitespace-separated words of the message
    alone: under 15 words the 30-word directive, from 15 to 29 the
    50-word one, from 30 on the 80-word one.  Stripping the raw message,
    as the route does, leaves the count unchanged.  Messages of 10, 20
    and 40 words get the 30, 50 and 80-word directives. *)
Theorem length_directive_by_word_count :
  (∀ si msg st mc hint,
     system_prompt upper si msg st mc hint
     = si ++ u " "
       ++ (if truthy hint then []
           else u "Your response MUST " ++ upper st
                  ++ u " with the user's message. ")
       ++ length_instruction (length (split msg)) ++ format_directive
       ++ (if truthy hint then [] else u " " ++ memory_instruction mc hint))
  ∧ (∀ n, n < 15 ∧ length_instruction n = under_30_words
          ∨ 15 ≤ n < 30 ∧ length_instruction n = under_50_words
          ∨ 30 ≤ n ∧ length_instruction n = under_80_words)
  ∧ (∀ msg, length (split (strip msg)) = length (split msg))
  ∧ (under_30_words ≠ under_50_words ∧ under_50_words ≠ under_80_words
     ∧ under_30_words ≠ under_80_words)
  ∧ (length (split (n_words 10)) = 10
     ∧ length_instruction (length (split (n_words 10))) = under_30_words)
  ∧ (length (split (n_words 20)) = 20
     ∧ length_instruction (length (split (n_words 20))) = under_50_words)
  ∧ (length (split (n_words 40)) = 40
     ∧ length_instruction (length (split (n_words 40))) = under_80_words).
Proof.
  split_and!; try (vm_compute; (reflexivity || discriminate)).
  - apply system_prompt_shape.
  - apply length_instruction_tiers.
  - intros msg. by rewrite split_strip.
Qed.

(** ** Rephrase mode *)

Lemma startswith_app (p b : list N) : startswith p (p ++ b) = true.
Proof. induction p as [|a p IH]; simpl; [done |]. by rewrite N.eqb_refl. Qed.

Lemma contains_startswith (p s : list N) :
  startswith p s = true → contains p s = true.
Proof. intros H. destruct s; simpl; by rewrite H. Qed.

Lemma contains_app (a p b : list N) : contains p (a ++ p ++ b) = true.
Proof.
  induction a as [|x a IH]; simpl.
  - apply contains_startswith, startswith_app.
  - rewrite IH. apply orb_true_r.
Qed.

Lemma startswith_prefix (a b s : list N) :
  startswith (a ++ b) s = true → startswith a s = true.
Proof.
  revert s. induction a as [|x a IH]; intros s; simpl; [done |].
  destruct s as [|y s]; [done |].
  intros [-> H]%andb_true_iff. by rewrite (IH _ H).
Qed.

Lemma contains_prefix (a b s : list N) :
  contains a s = false → contains (a ++ b) s = false.
Proof.
  induction s as [|y s IH]; simpl.
  - destruct a; simpl; [done |]. done.
  - intros [H1 H2]%orb_false_iff. apply orb_false_iff. split; [| by apply IH].
    destruct (startswith (a ++ b) (y :: s)) eqn:E; [| done].
    apply startswith_prefix in E. congruence.
Qed.

Lemma dict_get_elem_of {A} (d : list (list N * A)) k v :
  dict_get d k = Some v → (k, v) ∈ d.
Proof.
  induction d as [|[k' v'] d IH]; simpl; [done |].
  case_decide as Hk.
  - intros [= ->]. subst. apply list_elem_of_here.
  - intros H. apply list_elem_of_further. by apply IH.
Qed.

Lemma rephrase_system_prompt_elem_of (name si msg st mc hint : list N) :
  dict_get PERSONAS name = Some si → truthy hint = true →
  system_prompt upper si msg st mc hint ∈ rephrase_system_prompts.
Proof.
  intros Hsi Hh. unfold system_prompt, stance_instruction. rewrite Hh.
  unfold rephrase_system_prompts.
  apply list_elem_of_bind. exists (name, si). split; [| by apply dict_get_elem_of].
  apply list_elem_of_bind. exists (length_instruction (length (split msg))).
  split; [by apply list_elem_of_singleton |].
  unfold length_instruction. repeat case_bool_decide.
  - apply list_elem_of_here.
  - apply list_elem_of_further, list_elem_of_here.
  - do 2 apply list_elem_of_further. apply list_elem_of_here.
Qed.

Lemma rephrase_system_prompts_free_of (needle : list N) :
  forallb (λ sp, negb (contains needle sp)) rephrase_system_prompts = true →
  ∀ sp, sp ∈ rephrase_system_prompts → contains needle sp = false.
Proof.
  intros H sp Hsp. rewrite forallb_forall in H.
  apply negb_true_iff, H. by apply list_elem_of_In.
Qed.

Lemma compose_payload_rephrase (si msg st mc st' mc' hint : list N) :
  truthy hint = true →
  compose_payload upper si msg st mc hint
  = compose_payload upper si msg st' mc' hint.
Proof.
  intros Hh. unfold compose_payload, user_message_with_context,
    system_prompt, stance_instruction. by rewrite Hh.
Qed.

(** C4, as the claim states it, fails: in rephrase mode the system
    prompt holds no rephrase directive; the word does not occur in it at
    all. *)
Lemma rephrase_directive_not_in_system_prompt :
  contains (task_instruction (u "Sounds good"))
    (system_prompt ascii_upper rebel (u "Want to grab lunch?") (u "Agree") []
       (u "Sounds good")) = false
  ∧ contains (u "ephrase")
      (system_prompt ascii_upper rebel (u "Want to grab lunch?") (u "Agree") []
         (u "Sounds good")) = false.
Proof. split; vm_compute; reflexivity. Qed.

(** C4, amended: with a draft answer present, the rephrase directive is
    part of the user content, which is the incoming message, the draft
    and that directive; the system prompt is the persona text, the
    length directive and the format directive.  It holds neither the
    rephrase directive nor the stance directive text, whatever the
    stance, and neither the stance nor the retrieved memory context has
    any part in the payload. *)
Theorem rephrase_mode_prompt (name si msg stance mc hint : list N) :
  dict_get PERSONAS name = Some si →
  truthy hint = true →
  let p := compose_payload upper si msg stance mc hint in
  contents_text p
    = u "Incoming message: " ++ msg ++ nl ++ nl
      ++ u "User's draft response: " ++ hint ++ nl ++ nl
      ++ task_instruction hint
  ∧ contains (task_instruction hint) (contents_text p) = true
  ∧ systemInstruction_text p
    = si ++ u " " ++ length_instruction (length (split msg))
      ++ format_directive
  ∧ contains (task_instruction hint) (systemInstruction_text p) = false
  ∧ contains (u "Your response MUST") (systemInstruction_text p) = false
  ∧ contains (u "with the user's message") (systemInstruction_text p) = false
  ∧ ∀ stance' mc', compose_payload upper si msg stance' mc' hint = p.
Proof.
  intros Hsi Hh p.
  pose proof (rephrase_system_prompt_elem_of name si msg stance mc hint Hsi Hh)
    as Hin.
  change (system_prompt upper si msg stance mc hint)
    with (systemInstruction_text p) in Hin.
  assert (contents_text p
          = u "Incoming message: " ++ msg ++ nl ++ nl
            ++ u "User's draft response: " ++ hint ++ nl ++ nl
            ++ task_instruction hint) as Hc.
  { subst p. simpl. unfold user_message_with_context. by rewrite Hh. }
  split_and!.
  - done.
  - rewrite Hc.
    replace (u "Incoming message: " ++ msg ++ nl ++ nl
             ++ u "User's draft response: " ++ hint ++ nl ++ nl
             ++ task_instruction hint)
      with ((u "Incoming message: " ++ msg ++ nl ++ nl
             ++ u "User's draft response: " ++ hint ++ nl ++ nl)
            ++ task_instruction hint ++ [])
      by (by rewrite app_nil_r, <- !(assoc_L (++))).
    apply contains_app.
  - subst p. simpl. unfold system_prompt, stance_instruction.
    by rewrite Hh.
  - apply contains_prefix.
    by apply (rephrase_system_prompts_free_of (u "The user wants to reply with: '")).
  - by apply (rephrase_system_prompts_free_of (u "Your response MUST")).
  - by apply (rephrase_system_prompts_free_of (u "with the user's message")).
  - intros stance' mc'. subst p. unfold compose_payload.
    unfold user_message_with_context, system_prompt, stance_instruction.
    by rewrite Hh.
Qed.

End Prompt.

Lemma rephrase_mode_prompt_witness :
  let p := compose_payload ascii_upper rebel (u "Want to grab lunch?")
             (u "Disagree") [] (u "Sounds good") in
  contents_text p
    = u "Incoming message: " ++ u "Want to grab lunch?" ++ nl ++ nl
      ++ u "User's draft response: " ++ u "Sounds good" ++ nl ++ nl
      ++ task_instruction (u "Sounds good")
  ∧ contains (task_instruction (u "Sounds good")) (contents_text p) = true
  ∧ systemInstruction_text p
    = rebel ++ u " "
      ++ length_instruction (length (split (u "Want to grab lunch?")))
      ++ format_directive
  ∧ contains (task_instruction (u "Sounds good")) (systemInstruction_text p)
    = false
  ∧ contains (u "Your response MUST") (systemInstruction_text p) = false
  ∧ contains (u "with the user's message") (systemInstruction_text p) = false
  ∧ ∀ stance' mc',
      compose_payload ascii_upper rebel (u "Want to grab lunch?") stance' mc'
        (u "Sounds good") = p.
Proof.
  apply (rephrase_mode_prompt ascii_upper (u "The Rebel")); reflexivity.
Defined.

(** ** The memory: running the service on a world *)

Lemma store_conversation_rag_run (E : env)
    (c msg p st resp : list N) (w : world) (l : list conversation) (n : nat) :
  CHAT_COLLECTIONS w !! c = Some l →
  conversation_counter w !! c = Some n →
  store_conversation_rag E c msg p st resp w
  = (Ok (), stored E c msg p st resp l n w).
Proof.
  intros Hl Hn. unfold store_conversation_rag, stored. run_M.
  rewrite Hl, Hn. simpl. rewrite !lookup_insert_eq. simpl.
  rewrite Hl. simpl.
  unfold enforce_cap, new_record.
  case_bool_decide; simpl.
  - rewrite !lookup_insert_eq. simpl. by rewrite insert_insert_eq.
  - done.
Qed.

Lemma store_conversation_rag_unknown (E : env)
    (c msg p st resp : list N) (w : world) :
  CHAT_COLLECTIONS w !! c = None →
  store_conversation_rag E c msg p st resp w = (Raise (KeyError c), w).
Proof. intros Hl. unfold store_conversation_rag. run_M. by rewrite Hl. Qed.

Lemma retrieve_relevant_context_rag_run (E : env) (c msg : list N) (k : nat)
    (w : world) (l : list conversation) :
  CHAT_COLLECTIONS w !! c = Some l →
  retrieve_relevant_context_rag E c msg k w
  = (Ok (retrieval E c msg k l w).1, (retrieval E c msg k l w).2).
Proof.
  intros Hl. unfold retrieve_relevant_context_rag, retrieval. run_M.
  rewrite Hl. simpl. rewrite Hl. simpl. destruct l as [|x l]; simpl; [done |].
  rewrite Hl. simpl. unfold context_of, log_query.
  destruct (similarity E (x :: l) msg (k `min` S (length l))) as [results | e];
    simpl; [| done].
  destruct (documents results) as [|docs ?]; simpl; [done |].
  case_bool_decide as Hd.
  - subst docs. done.
  - destruct docs as [|d docs]; [done |].
    destruct (metadatas results); done.
Qed.

Lemma retrieve_relevant_context_rag_unknown (E : env) (c msg : list N)
    (k : nat) (w : world) :
  CHAT_COLLECTIONS w !! c = None →
  retrieve_relevant_context_rag E c msg k w = (Raise (KeyError c), w).
Proof. intros Hl. unfold retrieve_relevant_context_rag. run_M. by rewrite Hl. Qed.

Lemma retrieval_memory (E : env) (c msg : list N) (k : nat)
    (l : list conversation) (w : world) :
  CHAT_COLLECTIONS (retrieval E c msg k l w).2 = CHAT_COLLECTIONS w
  ∧ conversation_counter (retrieval E c msg k l w).2 = conversation_counter w.
Proof. by destruct l. Qed.

(** ** Identifiers and the cap *)

#[global] Instance u_inj : Inj (=) (=) u.
Proof.
  intros s1 s2 H. unfold u in H.
  rewrite <- (string_of_list_ascii_of_string s1),
          <- (string_of_list_ascii_of_string s2).
  f_equal. revert H.
  generalize (list_ascii_of_string s1) (list_ascii_of_string s2).
  intros l1. induction l1 as [|a l1 IH]; intros [|b l2] H; try done.
  simpl in H. injection H as Hab H. f_equal; [| by apply IH].
  by rewrite <- (ascii_N_embedding a), <- (ascii_N_embedding b), Hab.
Qed.

#[global] Instance mint_id_inj (c : list N) : Inj (=) (=) (mint_id c).
Proof.
  intros n m H. unfold mint_id in H.
  do 2 apply app_inv_head in H. by apply (inj u), (inj pretty) in H.
Qed.

Lemma increasing_nil : increasing [].
Proof. intros i j a b H. done. Qed.

Lemma increasing_snoc (ns : list nat) (m : nat) :
  increasing ns → Forall (λ k, k < m) ns → increasing (ns ++ [m]).
Proof.
  intros Hinc Hlt i j a b Hi Hj Hij.
  destruct (decide (j < length ns)) as [Hjl | Hjl].
  - rewrite lookup_app_l in Hi, Hj by lia. eauto.
  - rewrite lookup_app_l in Hi.
    2:{ apply lookup_lt_Some in Hj. rewrite length_app in Hj. simpl in Hj. lia. }
    rewrite lookup_app_r in Hj by lia.
    apply list_lookup_singleton_Some in Hj as [_ <-].
    rewrite Forall_forall in Hlt. apply Hlt.
    apply list_elem_of_lookup. eauto.
Qed.

Lemma increasing_drop (ns : list nat) (k : nat) :
  increasing ns → increasing (drop k ns).
Proof.
  intros Hinc i j a b Hi Hj Hij. rewrite lookup_drop in Hi, Hj.
  apply (Hinc (k + i) (k + j)); (done || lia).
Qed.

Lemma increasing_NoDup (ns : list nat) : increasing ns → NoDup ns.
Proof.
  intros Hinc. apply NoDup_alt. intros i j x Hi Hj.
  destruct (Nat.lt_trichotomy i j) as [H | [H | H]]; [| done |].
  - pose proof (Hinc _ _ _ _ Hi Hj H). lia.
  - pose proof (Hinc _ _ _ _ Hj Hi H). lia.
Qed.

Lemma numbered_NoDup (c : list N) (n : nat) (l : list conversation) :
  numbered c n l → NoDup (record_id <$> l).
Proof.
  intros [ns [-> [Hinc _]]]. apply NoDup_fmap_2; [apply _ |].
  by apply increasing_NoDup.
Qed.

Lemma add_record_fresh (x : conversation) (l : list conversation) :
  record_id x ∉ record_id <$> l → add_record x l = l ++ [x].
Proof. intros H. unfold add_record. by rewrite bool_decide_eq_false_2. Qed.

Lemma delete_records_none (ids : list (list N)) (l : list conversation) :
  (∀ x, x ∈ l → record_id x ∉ ids) → delete_records ids l = l.
Proof.
  unfold delete_records. induction l as [|x l IH]; intros H; [done |].
  rewrite filter_cons_True by (apply H; left).
  f_equal. apply IH. intros y Hy. apply H. by right.
Qed.

Lemma delete_records_take (l : list conversation) : ∀ k pre,
  NoDup (record_id <$> l) →
  (∀ x, x ∈ l → record_id x ∉ pre) →
  delete_records (pre ++ take k (record_id <$> l)) l = drop k l.
Proof.
  induction l as [|x l IH]; intros k pre Hnd Hpre.
  - by destruct k.
  - destruct k as [|k].
    + simpl. rewrite app_nil_r. by apply delete_records_none.
    + rewrite fmap_cons in Hnd. apply NoDup_cons in Hnd as [Hx Hnd].
      rewrite fmap_cons. cbn [take drop]. unfold delete_records.
      rewrite filter_cons_False.
      2:{ intros Hn. apply Hn. apply elem_of_app. right. left. }
      rewrite cons_middle, (assoc_L (++)).
      apply (IH k (pre ++ [record_id x])); [done |].
      intros y Hy. apply not_elem_of_app. split.
      * apply Hpre. by right.
      * intros Hyx%list_elem_of_singleton. apply Hx. rewrite <- Hyx.
        by apply list_elem_of_fmap_2.
Qed.

(** With distinct ids, the cap keeps the last twenty records. *)
Lemma enforce_cap_drop (l : list conversation) :
  NoDup (record_id <$> l) → enforce_cap l = drop (length l - 20) l.
Proof.
  intros Hnd. unfold enforce_cap. case_bool_decide as Hlen.
  - apply (delete_records_take l _ []); [done |].
    intros x _. apply not_elem_of_nil.
  - replace (length l - 20) with 0 by lia. done.
Qed.

Lemma numbered_fresh (c : list N) (n : nat) (l : list conversation) :
  numbered c n l → mint_id c (n + 1) ∉ record_id <$> l.
Proof.
  intros [ns [-> [_ Hr]]] [k [Hk Hin]]%list_elem_of_fmap.
  apply (inj (mint_id c)) in Hk. subst k.
  rewrite Forall_forall in Hr. apply Hr in Hin. lia.
Qed.

(** What the memory writer leaves in a collection whose records are
    numbered up to [n]: the old records and the new one, cut to the last
    twenty; and they are numbered up to [n + 1]. *)
Lemma stored_records (E : env) (c msg p st resp : list N) (n : nat)
    (l : list conversation) :
  numbered c n l →
  let x := new_record E c msg p st resp (n + 1) in
  enforce_cap (add_record x l) = drop (length (l ++ [x]) - 20) (l ++ [x])
  ∧ numbered c (n + 1) (enforce_cap (add_record x l)).
Proof.
  intros Hnum x.
  pose proof (numbered_fresh c n l Hnum) as Hfresh.
  destruct Hnum as [ns [Hids [Hinc Hr]]].
  assert (record_id <$> l ++ [x] = mint_id c <$> ns ++ [n + 1]) as Hids'.
  { by rewrite !fmap_app, Hids. }
  assert (increasing (ns ++ [n + 1])) as Hinc'.
  { apply increasing_snoc; [done |].
    eapply Forall_impl; [exact Hr |]. simpl. lia. }
  assert (Forall (λ k, 1 ≤ k ≤ n + 1) (ns ++ [n + 1])) as Hr'.
  { apply Forall_app. split.
    - eapply Forall_impl; [exact Hr |]. simpl. lia.
    - repeat constructor; lia. }
  rewrite add_record_fresh by done.
  assert (enforce_cap (l ++ [x]) = drop (length (l ++ [x]) - 20) (l ++ [x]))
    as Hcap.
  { apply enforce_cap_drop. rewrite Hids'.
    apply NoDup_fmap_2; [apply _ | by apply increasing_NoDup]. }
  split; [done |]. rewrite Hcap.
  exists (drop (length (l ++ [x]) - 20) (ns ++ [n + 1])). split_and!.
  - by rewrite fmap_drop, Hids', fmap_drop.
  - by apply increasing_drop.
  - by apply Forall_drop.
Qed.

Lemma bind_ok {A B} (m : M A) (f : A → M B) (w w1 : world) (a : A) :
  m w = (Ok a, w1) → (m ≫= f) w = f a w1.
Proof. intros H. unfold mbind, M_bind. by rewrite H. Qed.

Lemma bind_raise {A B} (m : M A) (f : A → M B) (w w1 : world) (e : exn) :
  m w = (Raise e, w1) → (m ≫= f) w = (Raise e, w1).
Proof. intros H. unfold mbind, M_bind. by rewrite H. Qed.

Lemma try_except_ok {A} (m : M A) (h : exn → M A) (w w1 : world) (a : A) :
  m w = (Ok a, w1) → try_except m h w = (Ok a, w1).
Proof. intros H. unfold try_except. by rewrite H. Qed.

Lemma try_except_raise {A} (m : M A) (h : exn → M A) (w w1 : world) (e : exn) :
  m w = (Raise e, w1) → try_except m h w = h e w1.
Proof. intros H. unfold try_except. by rewrite H. Qed.

Lemma in_CHAT_COLLECTIONS_run (c : list N) (w : world) :
  in_CHAT_COLLECTIONS c w
  = (Ok (bool_decide (is_Some (CHAT_COLLECTIONS w !! c))), w).
Proof. done. Qed.

Section Memory.

Variable GEMINI_API_KEY : list N.
Variable upper : list N → list N.

Lemma generate_reply_run (E : env) (p si msg st c hint : list N)
    (w : world) (l : list conversation) :
  dict_get PERSONAS p = Some si →
  CHAT_COLLECTIONS w !! c = Some l →
  generate_reply upper E p msg st c hint w
  = (Ok (reply_to E p
           (compose_payload upper si msg st (retrieval E c msg 3 l w).1 hint)),
     (retrieval E c msg 3 l w).2).
Proof.
  intros Hp Hl. unfold generate_reply.
  unfold mbind at 1. unfold M_bind at 1. rewrite Hp.
  unfold mret at 1. unfold M_ret at 1.
  unfold mbind at 1. unfold M_bind at 1.
  rewrite (retrieve_relevant_context_rag_run _ _ _ _ _ _ Hl).
  done.
Qed.

(** The reply and the world [POST /generate] ends in, once the request
    has passed validation: on a collection holding [l], the counter at
    [n]. *)
Lemma generate_single_reply_run (E : env) (d : gmap (list N) (list N))
    (w : world) (si : list N) (l : list conversation) (n : nat) :
  truthy GEMINI_API_KEY = true →
  truthy (req_message d) = true →
  dict_get PERSONAS (req_persona d) = Some si →
  CHAT_COLLECTIONS w !! req_chat_id d = Some l →
  conversation_counter w !! req_chat_id d = Some n →
  let found := retrieval E (req_chat_id d) (req_message d) 3 l w in
  let r := reply_to E (req_persona d)
             (compose_payload upper si (req_message d) (req_stance d) found.1
                (req_response_hint d)) in
  generate_single_reply GEMINI_API_KEY upper E (Some d) w
  = (Ok {| status := 200; body := JReply r |},
     match r with
     | Success reply_text _ =>
         stored E (req_chat_id d) (req_message d) (req_persona d)
           (req_stance d) reply_text l n found.2
     | Failure _ => found.2
     end).
Proof.
  intros Hkey Hmsg Hp Hl Hn found r. unfold generate_single_reply.
  rewrite Hkey. cbn [negb].
  apply try_except_ok.
  erewrite bind_ok; [| reflexivity]. cbv zeta.
  rewrite Hmsg, Hp. cbn [negb].
  rewrite bool_decide_eq_true_2 by eauto. cbn [negb].
  erewrite bind_ok; [| apply in_CHAT_COLLECTIONS_run].
  rewrite Hl. rewrite bool_decide_eq_true_2 by eauto. cbn [negb].
  erewrite bind_ok; [| by apply generate_reply_run].
  fold found. fold r.
  destruct (retrieval_memory E (req_chat_id d) (req_message d) 3 l w)
    as [Hc1 Hc2]. fold found in Hc1, Hc2.
  destruct r as [t ps | err].
  - erewrite bind_ok; [done |].
    apply store_conversation_rag_run; by rewrite ?Hc1, ?Hc2.
  - erewrite bind_ok; [done | done].
Qed.

Lemma generate_single_reply_no_key (E : env)
    (data : option (gmap (list N) (list N))) (w : world) :
  truthy GEMINI_API_KEY = false →
  generate_single_reply GEMINI_API_KEY upper E data w
  = (Ok (error_response 500 (u "API key missing")), w).
Proof. intros Hkey. unfold generate_single_reply. by rewrite Hkey. Qed.

Lemma generate_single_reply_no_body (E : env) (w : world) :
  truthy GEMINI_API_KEY = true →
  generate_single_reply GEMINI_API_KEY upper E None w
  = (Ok (error_response 500 (u "'NoneType' object has no attribute 'get'")), w).
Proof.
  intros Hkey. unfold generate_single_reply. rewrite Hkey. cbn [negb].
  erewrite try_except_raise; [| by erewrite bind_raise]. done.
Qed.

Lemma generate_single_reply_no_message (E : env) (d : gmap (list N) (list N))
    (w : world) :
  truthy GEMINI_API_KEY = true →
  truthy (req_message d) = false →
  generate_single_reply GEMINI_API_KEY upper E (Some d) w
  = (Ok (error_response 400 (u "Message is required")), w).
Proof.
  intros Hkey Hmsg. unfold generate_single_reply. rewrite Hkey. cbn [negb].
  apply try_except_ok. erewrite bind_ok; [| reflexivity]. cbv zeta.
  by rewrite Hmsg.
Qed.

Lemma generate_single_reply_bad_persona (E : env) (d : gmap (list N) (list N))
    (w : world) :
  truthy GEMINI_API_KEY = true →
  truthy (req_message d) = true →
  dict_get PERSONAS (req_persona d) = None →
  generate_single_reply GEMINI_API_KEY upper E (Some d) w
  = (Ok (error_response 400 (u "Invalid persona")), w).
Proof.
  intros Hkey Hmsg Hp. unfold generate_single_reply. rewrite Hkey. cbn [negb].
  apply try_except_ok. erewrite bind_ok; [| reflexivity]. cbv zeta.
  rewrite Hmsg, Hp. cbn [negb].
  rewrite bool_decide_eq_false_2; [done |]. by intros [? ?].
Qed.

Lemma generate_single_reply_bad_chat (E : env) (d : gmap (list N) (list N))
    (w : world) (si : list N) :
  truthy GEMINI_API_KEY = true →
  truthy (req_message d) = true →
  dict_get PERSONAS (req_persona d) = Some si →
  CHAT_COLLECTIONS w !! req_chat_id d = None →
  generate_single_reply GEMINI_API_KEY upper E (Some d) w
  = (Ok (error_response 400 (u "Invalid chat ID")), w).
Proof.
  intros Hkey Hmsg Hp Hc. unfold generate_single_reply. rewrite Hkey. cbn [negb].
  apply try_except_ok. erewrite bind_ok; [| reflexivity]. cbv zeta.
  rewrite Hmsg, Hp. cbn [negb].
  rewrite bool_decide_eq_true_2 by eauto. cbn [negb].
  erewrite bind_ok; [| apply in_CHAT_COLLECTIONS_run].
  rewrite Hc. rewrite bool_decide_eq_false_2; [done |]. by intros [? ?].
Qed.

(** A counter missing for a known chat: the memory writer raises before
    it changes anything, and the route answers 500. *)
Lemma generate_single_reply_no_counter (E : env) (d : gmap (list N) (list N))
    (w : world) (si : list N) (l : list conversation) :
  truthy GEMINI_API_KEY = true →
  truthy (req_message d) = true →
  dict_get PERSONAS (req_persona d) = Some si →
  CHAT_COLLECTIONS w !! req_chat_id d = Some l →
  conversation_counter w !! req_chat_id d = None →
  let found := retrieval E (req_chat_id d) (req_message d) 3 l w in
  let r := reply_to E (req_persona d)
             (compose_payload upper si (req_message d) (req_stance d) found.1
                (req_response_hint d)) in
  generate_single_reply GEMINI_API_KEY upper E (Some d) w
  = (Ok match r with
        | Success _ _ => error_response 500 (str_of_exn (KeyError (req_chat_id d)))
        | Failure _ => {| status := 200; body := JReply r |}
        end,
     found.2).
Proof.
  intros Hkey Hmsg Hp Hl Hn found r. unfold generate_single_reply.
  rewrite Hkey. cbn [negb].
  destruct (retrieval_memory E (req_chat_id d) (req_message d) 3 l w)
    as [Hc1 Hc2]. fold found in Hc1, Hc2.
  destruct r as [t ps | err] eqn:Hr.
  - assert (store_conversation_rag E (req_chat_id d) (req_message d)
              (req_persona d) (req_stance d) t found.2
            = (Raise (KeyError (req_chat_id d)), found.2)) as Hstore.
    { unfold store_conversation_rag.
      erewrite bind_ok.
      2:{ unfold getitem_CHAT_COLLECTIONS. by rewrite Hc1, Hl. }
      erewrite bind_raise; [done |].
      unfold getitem_conversation_counter. by rewrite Hc2, Hn. }
    erewrite try_except_raise; [done |].
    erewrite bind_ok; [| reflexivity]. cbv zeta.
    rewrite Hmsg, Hp. cbn [negb].
    rewrite bool_decide_eq_true_2 by eauto. cbn [negb].
    erewrite bind_ok; [| apply in_CHAT_COLLECTIONS_run].
    rewrite Hl. rewrite bool_decide_eq_true_2 by eauto. cbn [negb].
    erewrite bind_ok; [| by apply generate_reply_run].
    fold found. fold r. rewrite Hr.
    by erewrite bind_raise.
  - apply try_except_ok.
    erewrite bind_ok; [| reflexivity]. cbv zeta.
    rewrite Hmsg, Hp. cbn [negb].
    rewrite bool_decide_eq_true_2 by eauto. cbn [negb].
    erewrite bind_ok; [| apply in_CHAT_COLLECTIONS_run].
    rewrite Hl. rewrite bool_decide_eq_true_2 by eauto. cbn [negb].
    erewrite bind_ok; [| by apply generate_reply_run].
    fold found. fold r. rewrite Hr.
    erewrite bind_ok; [done | done].
Qed.

Lemma delete_records_all (l : list conversation) :
  delete_records (record_id <$> l) l = [].
Proof.
  unfold delete_records. apply elem_of_nil_inv. intros x.
  rewrite list_elem_of_filter. intros [Hx Hin]. apply Hx.
  by apply list_elem_of_fmap_2.
Qed.

Lemma clear_memory_run (c : list N) (w : world) (l : list conversation) :
  CHAT_COLLECTIONS w !! c = Some l →
  clear_memory c w
  = (Ok {| status := 200; body := JMessage (c ++ u " memory cleared") |},
     cleared c w).
Proof.
  intros Hl. unfold clear_memory, cleared.
  erewrite bind_ok; [| apply in_CHAT_COLLECTIONS_run].
  rewrite Hl. rewrite bool_decide_eq_true_2 by eauto. cbn [negb].
  erewrite bind_ok.
  2:{ unfold getitem_CHAT_COLLECTIONS. by rewrite Hl. }
  apply try_except_ok.
  assert (contents w c = l) as Hcont by (unfold contents; by rewrite Hl).
  erewrite bind_ok; [| reflexivity]. cbv zeta. rewrite Hcont.
  destruct l as [|x l].
  - cbn [fmap list_fmap]. erewrite bind_ok; [| reflexivity].
    erewrite bind_ok; [| reflexivity].
    unfold mret, M_ret. do 2 f_equal. cbn.
    by rewrite insert_id.
  - rewrite fmap_cons.
    erewrite bind_ok.
    2:{ unfold collection_delete, set_contents. rewrite Hcont.
        rewrite <- fmap_cons, delete_records_all. done. }
    erewrite bind_ok; [| reflexivity]. done.
Qed.

Lemma clear_memory_unknown (c : list N) (w : world) :
  CHAT_COLLECTIONS w !! c = None →
  clear_memory c w = (Ok (error_response 400 (u "Invalid chat ID")), w).
Proof.
  intros Hl. unfold clear_memory.
  erewrite bind_ok; [| apply in_CHAT_COLLECTIONS_run].
  rewrite Hl. rewrite bool_decide_eq_false_2; [done |]. by intros [? ?].
Qed.

(** Every way [POST /generate] can go. *)
Lemma generate_single_reply_cases (E : env)
    (data : option (gmap (list N) (list N))) (w : world) :
  (∃ st err, (st = 400 ∨ st = 500)
     ∧ generate_single_reply GEMINI_API_KEY upper E data w
       = (Ok (error_response st err), w))
  ∨ (∃ d si l,
       data = Some d
       ∧ truthy (req_message d) = true
       ∧ dict_get PERSONAS (req_persona d) = Some si
       ∧ CHAT_COLLECTIONS w !! req_chat_id d = Some l
       ∧ let found := retrieval E (req_chat_id d) (req_message d) 3 l w in
         let r := reply_to E (req_persona d)
                    (compose_payload upper si (req_message d) (req_stance d)
                       found.1 (req_response_hint d)) in
         (∃ n, conversation_counter w !! req_chat_id d = Some n
               ∧ generate_single_reply GEMINI_API_KEY upper E data w
                 = (Ok {| status := 200; body := JReply r |},
                    match r with
                    | Success reply_text _ =>
                        stored E (req_chat_id d) (req_message d) (req_persona d)
                          (req_stance d) reply_text l n found.2
                    | Failure _ => found.2
                    end))
         ∨ (conversation_counter w !! req_chat_id d = None
            ∧ generate_single_reply GEMINI_API_KEY upper E data w
              = (Ok match r with
                    | Success _ _ =>
                        error_response 500 (str_of_exn (KeyError (req_chat_id d)))
                    | Failure _ => {| status := 200; body := JReply r |}
                    end,
                 found.2))).
Proof.
  destruct (truthy GEMINI_API_KEY) eqn:Hkey.
  2:{ left. eexists _, _. split; [by right |].
      by apply generate_single_reply_no_key. }
  destruct data as [d |].
  2:{ left. eexists _, _. split; [by right |].
      by apply generate_single_reply_no_body. }
  destruct (truthy (req_message d)) eqn:Hmsg.
  2:{ left. eexists _, _. split; [by left |].
      by apply generate_single_reply_no_message. }
  destruct (dict_get PERSONAS (req_persona d)) as [si |] eqn:Hp.
  2:{ left. eexists _, _. split; [by left |].
      by apply generate_single_reply_bad_persona. }
  destruct (CHAT_COLLECTIONS w !! req_chat_id d) as [l |] eqn:Hl.
  2:{ left. eexists _, _. split; [by left |].
      by eapply generate_single_reply_bad_chat. }
  right. exists d, si, l. split_and!; try done.
  destruct (conversation_counter w !! req_chat_id d) as [n |] eqn:Hn.
  - left. exists n. split; [done |]. by apply generate_single_reply_run.
  - right. split; [done |]. by apply generate_single_reply_no_counter.
Qed.

(** *** The invariant *)

Lemma world_ok_initial : world_ok initial_world.
Proof.
  unfold world_ok, initial_world, chats. simpl. split_and!.
  - rewrite !dom_insert_L, dom_empty_L. set_solver.
  - rewrite !dom_insert_L, dom_empty_L. set_solver.
  - intros c l n Hl Hn.
    assert (l = []) as ->.
    { apply lookup_insert_Some in Hl as [[_ <-] | [_ Hl]]; [done |].
      apply lookup_insert_Some in Hl as [[_ <-] | [_ Hl]]; [done |].
      by rewrite lookup_empty in Hl. }
    split; [| simpl; lia].
    exists []. split_and!; [done | apply increasing_nil | constructor].
Qed.

Lemma world_ok_counter (w : world) (c : list N) :
  world_ok w → is_Some (CHAT_COLLECTIONS w !! c) →
  is_Some (conversation_counter w !! c).
Proof.
  intros (Hd1 & Hd2 & _) H. apply elem_of_dom. rewrite Hd2, <- Hd1.
  by apply elem_of_dom.
Qed.

Lemma world_ok_same_memory (w w' : world) :
  CHAT_COLLECTIONS w' = CHAT_COLLECTIONS w →
  conversation_counter w' = conversation_counter w →
  world_ok w → world_ok w'.
Proof. unfold world_ok. by intros -> ->. Qed.

Lemma world_ok_stored (E : env) (c msg p st resp : list N)
    (l : list conversation) (n : nat) (w : world) :
  CHAT_COLLECTIONS w !! c = Some l →
  conversation_counter w !! c = Some n →
  world_ok w → world_ok (stored E c msg p st resp l n w).
Proof.
  intros Hl Hn (Hd1 & Hd2 & Hnum). unfold world_ok, stored. simpl. split_and!.
  - rewrite dom_insert_lookup_L; [done | eauto].
  - rewrite dom_insert_lookup_L; [done | eauto].
  - intros c' l' n' Hl' Hn'.
    destruct (decide (c = c')) as [<- | Hne].
    + rewrite lookup_insert_eq in Hl'. rewrite lookup_insert_eq in Hn'.
      injection Hl' as <-. injection Hn' as <-.
      destruct (Hnum c l n Hl Hn) as [Hnl _].
      destruct (stored_records E c msg p st resp n l Hnl) as [Heq Hnum'].
      split; [done |]. rewrite Heq, length_drop. lia.
    + rewrite lookup_insert_ne in Hl' by done.
      rewrite lookup_insert_ne in Hn' by done. by apply (Hnum c').
Qed.

Lemma world_ok_cleared (c : list N) (l : list conversation) (w : world) :
  CHAT_COLLECTIONS w !! c = Some l →
  world_ok w → world_ok (cleared c w).
Proof.
  intros Hl Hok. pose proof (world_ok_counter w c Hok (mk_is_Some _ _ Hl)) as [n Hn].
  destruct Hok as (Hd1 & Hd2 & Hnum).
  unfold world_ok, cleared. simpl. split_and!.
  - rewrite dom_insert_lookup_L; [done | eauto].
  - rewrite dom_insert_lookup_L; [done | eauto].
  - intros c' l' n' Hl' Hn'.
    destruct (decide (c = c')) as [<- | Hne].
    + rewrite lookup_insert_eq in Hl'. rewrite lookup_insert_eq in Hn'.
      injection Hl' as <-. injection Hn' as <-.
      split; [| simpl; lia].
      exists []. split_and!; [done | apply increasing_nil | constructor].
    + rewrite lookup_insert_ne in Hl' by done.
      rewrite lookup_insert_ne in Hn' by done. by apply (Hnum c').
Qed.

Lemma world_ok_serve (r : request) (w : world) :
  world_ok w → world_ok (serve GEMINI_API_KEY upper r w).2.
Proof.
  intros Hok. destruct r as [E data | c]; simpl.
  - destruct (generate_single_reply_cases E data w)
      as [(st & err & _ & ->) | (d & si & l & -> & Hmsg & Hp & Hl & H)];
      [done |].
    cbv zeta in H.
    destruct (retrieval_memory E (req_chat_id d) (req_message d) 3 l w)
      as [Hc1 Hc2].
    destruct H as [(n & Hn & ->) | (Hn & ->)]; simpl.
    + destruct (reply_to _ _ _).
      * apply world_ok_stored; rewrite ?Hc1, ?Hc2; try done.
        by apply (world_ok_same_memory w).
      * by apply (world_ok_same_memory w).
    + by apply (world_ok_same_memory w).
  - destruct (CHAT_COLLECTIONS w !! c) as [l |] eqn:Hl.
    + rewrite (clear_memory_run c w l Hl). simpl. by eapply world_ok_cleared.
    + by rewrite (clear_memory_unknown c w Hl).
Qed.

Lemma reachable_world_ok (w : world) :
  reachable GEMINI_API_KEY upper w → world_ok w.
Proof.
  induction 1 as [| r w _ IH]; [apply world_ok_initial |].
  by apply world_ok_serve.
Qed.

End Memory.

(** ** Clearing a chat *)

Lemma stored_first (E : env) (c msg p st resp : list N) :
  enforce_cap (add_record (new_record E c msg p st resp 1) [])
  = [new_record E c msg p st resp 1].
Proof.
  rewrite add_record_fresh by apply not_elem_of_nil.
  unfold enforce_cap. rewrite bool_decide_eq_false_2; [done |]. simpl. lia.
Qed.

(** C8: clearing a known chat answers 200, leaves the chat with no
    record and its counter at zero, and touches no other chat; the record
    stored next is the only one and has sequence number 1, its id being
    the chat id followed by [_1]. *)
Theorem clear_memory_resets (c : list N) (w : world) :
  is_Some (CHAT_COLLECTIONS w !! c) →
  let w1 := (clear_memory c w).2 in
  (clear_memory c w).1
    = Ok {| status := 200; body := JMessage (c ++ u " memory cleared") |}
  ∧ CHAT_COLLECTIONS w1 !! c = Some []
  ∧ conversation_counter w1 !! c = Some 0
  ∧ (∀ c', c' ≠ c →
       CHAT_COLLECTIONS w1 !! c' = CHAT_COLLECTIONS w !! c'
       ∧ conversation_counter w1 !! c' = conversation_counter w !! c')
  ∧ ∀ E msg p st resp,
      let w2 := (store_conversation_rag E c msg p st resp w1).2 in
      CHAT_COLLECTIONS w2 !! c
        = Some [ {| record_id := c ++ u "_1";
                    record_document := msg;
                    record_metadata :=
                      {| md_response := resp; md_persona := p;
                         md_stance := st;
                         md_timestamp := now_isoformat E |} |} ]
      ∧ conversation_counter w2 !! c = Some 1.
Proof.
  intros [l Hl] w1. subst w1. rewrite (clear_memory_run c w l Hl). simpl.
  split_and!.
  - done.
  - apply lookup_insert_eq.
  - apply lookup_insert_eq.
  - intros c' Hne. by rewrite !lookup_insert_ne.
  - intros E msg p st resp.
    rewrite (store_conversation_rag_run E c msg p st resp (cleared c w) [] 0);
      [| apply lookup_insert_eq | apply lookup_insert_eq].
    simpl. rewrite !lookup_insert_eq. split; [| done].
    by rewrite stored_first.
Qed.

Lemma clear_memory_resets_witness :
  let w1 := (clear_memory (u "Timo") world_after_one).2 in
  (clear_memory (u "Timo") world_after_one).1
    = Ok {| status := 200;
            body := JMessage (u "Timo" ++ u " memory cleared") |}
  ∧ CHAT_COLLECTIONS w1 !! u "Timo" = Some []
  ∧ conversation_counter w1 !! u "Timo" = Some 0
  ∧ (∀ c', c' ≠ u "Timo" →
       CHAT_COLLECTIONS w1 !! c' = CHAT_COLLECTIONS world_after_one !! c'
       ∧ conversation_counter w1 !! c'
         = conversation_counter world_after_one !! c')
  ∧ ∀ E msg p st resp,
      let w2 := (store_conversation_rag E (u "Timo") msg p st resp w1).2 in
      CHAT_COLLECTIONS w2 !! u "Timo"
        = Some [ {| record_id := u "Timo" ++ u "_1";
                    record_document := msg;
                    record_metadata :=
                      {| md_response := resp; md_persona := p;
                         md_stance := st;
                         md_timestamp := now_isoformat E |} |} ]
      ∧ conversation_counter w2 !! u "Timo" = Some 1.
Proof.
  apply (clear_memory_resets (u "Timo") world_after_one).
  exists [first_record]. vm_compute. reflexivity.
Defined.

(** ** Identifiers *)

Section Identifiers.

Variable GEMINI_API_KEY : list N.
Variable upper : list N → list N.

(** C9: in every world the service can reach, the ids of a chat's
    records are minted from sequence numbers that go up strictly in
    insertion order, none above the counter, so they are pairwise
    distinct; the memory writer raises the counter by one and gives the
    new record, the last of the collection, the id made of the chat id,
    an underscore and the new counter value. *)
Theorem conversation_ids_increasing (w : world) (c : list N)
    (l : list conversation) (n : nat) :
  reachable GEMINI_API_KEY upper w →
  CHAT_COLLECTIONS w !! c = Some l →
  conversation_counter w !! c = Some n →
  (∃ ns, record_id <$> l = mint_id c <$> ns
         ∧ increasing ns ∧ Forall (λ k, 1 ≤ k ≤ n) ns)
  ∧ NoDup (record_id <$> l)
  ∧ ∀ E msg p st resp,
      let w' := (store_conversation_rag E c msg p st resp w).2 in
      let x := new_record E c msg p st resp (n + 1) in
      conversation_counter w' !! c = Some (n + 1)
      ∧ (∃ l', CHAT_COLLECTIONS w' !! c = Some l' ∧ last l' = Some x)
      ∧ record_id x = c ++ u "_" ++ u (pretty (n + 1)).
Proof.
  intros Hreach Hl Hn.
  pose proof (reachable_world_ok _ _ _ Hreach) as (_ & _ & Hnum).
  pose proof (Hnum c l n Hl Hn) as [Hnl _].
  split_and!.
  - exact Hnl.
  - by eapply numbered_NoDup.
  - intros E msg p st resp w' x. subst w'.
    rewrite (store_conversation_rag_run E c msg p st resp w l n Hl Hn).
    unfold stored. simpl. rewrite !lookup_insert_eq. split_and!; [done | | done].
    eexists. split; [done |].
    destruct (stored_records E c msg p st resp n l Hnl) as [-> _].
    fold x. rewrite drop_app_le by (rewrite length_app; simpl; lia).
    apply last_snoc.
Qed.

End Identifiers.

Lemma conversation_ids_increasing_witness :
  (∃ ns, record_id <$> [first_record] = mint_id (u "Timo") <$> ns
         ∧ increasing ns ∧ Forall (λ k, 1 ≤ k ≤ 1) ns)
  ∧ NoDup (record_id <$> [first_record])
  ∧ ∀ E msg p st resp,
      let w' := (store_conversation_rag E (u "Timo") msg p st resp
                   world_after_one).2 in
      let x := new_record E (u "Timo") msg p st resp (1 + 1) in
      conversation_counter w' !! u "Timo" = Some (1 + 1)
      ∧ (∃ l', CHAT_COLLECTIONS w' !! u "Timo" = Some l' ∧ last l' = Some x)
      ∧ record_id x = u "Timo" ++ u "_" ++ u (pretty (1 + 1)).
Proof.
  apply (conversation_ids_increasing sample_key ascii_upper world_after_one).
  - apply reachable_serve, reachable_initial.
  - vm_compute. reflexivity.
  - vm_compute. reflexivity.
Defined.

(** ** Retrieval *)

(** C7: for a known chat, retrieval returns a string and raises
    nothing, leaving the memory as it was.  The string is empty when the
    collection is empty, in which case no query is made, and when the
    similarity query fails; when the query answers with documents, it is
    the header, the numbered past exchanges and the footer. *)
Theorem retrieval_never_raises (E : env) (c msg : list N) (k : nat)
    (w : world) (l : list conversation) :
  CHAT_COLLECTIONS w !! c = Some l →
  ∃ context w',
    retrieve_relevant_context_rag E c msg k w = (Ok context, w')
    ∧ CHAT_COLLECTIONS w' = CHAT_COLLECTIONS w
    ∧ conversation_counter w' = conversation_counter w
    ∧ (l = [] → context = [] ∧ w' = w)
    ∧ (∀ e, similarity E l msg (min k (length l)) = Raise e → context = [])
    ∧ (∀ docs ds mds ms,
         l ≠ [] → docs ≠ [] →
         similarity E l msg (min k (length l))
           = Ok {| documents := docs :: ds; metadatas := mds :: ms |} →
         context
           = context_header ++ format_hits 1 (zip docs mds) ++ context_footer).
Proof.
  intros Hl. eexists _, _.
  split; [by apply retrieve_relevant_context_rag_run |].
  destruct (retrieval_memory E c msg k l w) as [Hc1 Hc2].
  split_and!; try done.
  - by intros ->.
  - intros e He. unfold retrieval. destruct l; [done |]. simpl in *.
    by rewrite He.
  - intros docs ds mds ms Hne Hd Hs. unfold retrieval.
    destruct l; [done |]. simpl in *. rewrite Hs. simpl.
    by destruct docs.
Qed.

Lemma retrieval_never_raises_witness :
  ∃ context w',
    retrieve_relevant_context_rag env_search_down (u "Timo") (u "hello") 3
      world_after_one = (Ok context, w')
    ∧ CHAT_COLLECTIONS w' = CHAT_COLLECTIONS world_after_one
    ∧ conversation_counter w' = conversation_counter world_after_one
    ∧ ([first_record] = [] → context = [] ∧ w' = world_after_one)
    ∧ (∀ e, similarity env_search_down [first_record] (u "hello")
              (min 3 (length [first_record])) = Raise e → context = [])
    ∧ (∀ docs ds mds ms,
         [first_record] ≠ [] → docs ≠ [] →
         similarity env_search_down [first_record] (u "hello")
           (min 3 (length [first_record]))
           = Ok {| documents := docs :: ds; metadatas := mds :: ms |} →
         context
           = context_header ++ format_hits 1 (zip docs mds) ++ context_footer).
Proof.
  apply (retrieval_never_raises env_search_down (u "Timo") (u "hello") 3
           world_after_one [first_record]).
  vm_compute. reflexivity.
Defined.

(** ** The generate route *)



Section Routes.

Variable GEMINI_API_KEY : list N.
Variable upper : list N → list N.



(** C5, amended: in rephrase mode the retrieval step still runs.  On a
    collection that holds records exactly one similarity query is issued,
    for the message and at most three results; on an empty one none is.
    What the query answers is not used: the reply and the memory are the
    same under any other similarity search. *)
Theorem rephrase_mode_still_queries (E : env) (d : gmap (list N) (list N))
    (w : world) (si : list N) (l : list conversation) :
  truthy GEMINI_API_KEY = true →
  truthy (req_message d) = true →
  dict_get PERSONAS (req_persona d) = Some si →
  CHAT_COLLECTIONS w !! req_chat_id d = Some l →
  truthy (req_response_hint d) = true →
  queries (generate_single_reply GEMINI_API_KEY upper E (Some d) w).2
    = queries w
      ++ match l with
         | [] => []
         | _ :: _ => [(req_chat_id d, req_message d, min 3 (length l))]
         end
  ∧ ∀ E',
      requests_post E' = requests_post E →
      now_isoformat E' = now_isoformat E →
      (generate_single_reply GEMINI_API_KEY upper E' (Some d) w).1 = (generate_single_reply GEMINI_API_KEY upper E (Some d) w).1
      ∧ CHAT_COLLECTIONS (generate_single_reply GEMINI_API_KEY upper E' (Some d) w).2
        = CHAT_COLLECTIONS (generate_single_reply GEMINI_API_KEY upper E (Some d) w).2
      ∧ conversation_counter (generate_single_reply GEMINI_API_KEY upper E' (Some d) w).2
        = conversation_counter (generate_single_reply GEMINI_API_KEY upper E (Some d) w).2.
Proof.
  intros Hkey Hmsg Hp Hl Hh.
  assert (∀ E0, queries (retrieval E0 (req_chat_id d) (req_message d) 3 l w).2
                = queries w
                  ++ match l with
                     | [] => []
                     | _ :: _ =>
                         [(req_chat_id d, req_message d, min 3 (length l))]
                     end) as Hq.
  { intros E0. unfold retrieval. destruct l; simpl; [by rewrite app_nil_r | done]. }
  assert (∀ E0 E1,
            requests_post E1 = requests_post E0 →
            reply_to E1 (req_persona d)
              (compose_payload upper si (req_message d) (req_stance d)
                 (retrieval E1 (req_chat_id d) (req_message d) 3 l w).1
                 (req_response_hint d))
            = reply_to E0 (req_persona d)
                (compose_payload upper si (req_message d) (req_stance d)
                   (retrieval E0 (req_chat_id d) (req_message d) 3 l w).1
                   (req_response_hint d))) as Hr.
  { intros E0 E1 Hpost. unfold reply_to. rewrite Hpost.
    by rewrite (compose_payload_rephrase upper si (req_message d)
                  (req_stance d) _ (req_stance d)
                  (retrieval E0 (req_chat_id d) (req_message d) 3 l w).1 _ Hh). }
  destruct (conversation_counter w !! req_chat_id d) as [n |] eqn:Hn.
  - rewrite (generate_single_reply_run GEMINI_API_KEY upper E d w si l n
               Hkey Hmsg Hp Hl Hn).
    split.
    + simpl. destruct (reply_to _ _ _); simpl; apply Hq.
    + intros E' Hpost Hnow.
      rewrite (generate_single_reply_run GEMINI_API_KEY upper E' d w si l n
                 Hkey Hmsg Hp Hl Hn).
      simpl. rewrite (Hr E E' Hpost).
      destruct (retrieval_memory E (req_chat_id d) (req_message d) 3 l w)
        as [Hc1 Hc2].
      destruct (retrieval_memory E' (req_chat_id d) (req_message d) 3 l w)
        as [Hc1' Hc2'].
      destruct (reply_to _ _ _); simpl.
      * unfold new_record. by rewrite Hnow, Hc1, Hc2, Hc1', Hc2'.
      * by rewrite Hc1, Hc2, Hc1', Hc2'.
  - rewrite (generate_single_reply_no_counter GEMINI_API_KEY upper E d w si l
               Hkey Hmsg Hp Hl Hn).
    split; [apply Hq |].
    intros E' Hpost Hnow.
    rewrite (generate_single_reply_no_counter GEMINI_API_KEY upper E' d w si l
               Hkey Hmsg Hp Hl Hn).
    simpl. rewrite (Hr E E' Hpost).
    destruct (retrieval_memory E (req_chat_id d) (req_message d) 3 l w)
      as [Hc1 Hc2].
    destruct (retrieval_memory E' (req_chat_id d) (req_message d) 3 l w)
      as [Hc1' Hc2'].
    by rewrite Hc1, Hc2, Hc1', Hc2'.
Qed.

End Routes.


(** C5, as the claim states it, fails: a request with a draft answer,
    sent to a chat that holds one record, leaves one similarity query in
    the log. *)
Lemma rephrase_mode_issues_query :
  truthy (req_response_hint lunch_draft) = true
  ∧ queries world_after_one = []
  ∧ queries (generate_single_reply sample_key ascii_upper
               (env_text (u "Sounds great")) (Some lunch_draft)
               world_after_one).2
    = [(u "Timo", u "Want to grab lunch?", 1)].
Proof. split_and!; vm_compute; reflexivity. Qed.

Lemma rephrase_mode_still_queries_witness :
  queries (generate_single_reply sample_key ascii_upper
             (env_text (u "Sounds great")) (Some lunch_draft)
             world_after_one).2
    = queries world_after_one
      ++ [(req_chat_id lunch_draft, req_message lunch_draft,
           min 3 (length [first_record]))]
  ∧ ∀ E',
      requests_post E' = requests_post (env_text (u "Sounds great")) →
      now_isoformat E' = now_isoformat (env_text (u "Sounds great")) →
      (generate_single_reply sample_key ascii_upper E' (Some lunch_draft)
         world_after_one).1
      = (generate_single_reply sample_key ascii_upper
           (env_text (u "Sounds great")) (Some lunch_draft) world_after_one).1
      ∧ CHAT_COLLECTIONS
          (generate_single_reply sample_key ascii_upper E' (Some lunch_draft)
             world_after_one).2
        = CHAT_COLLECTIONS
            (generate_single_reply sample_key ascii_upper
               (env_text (u "Sounds great")) (Some lunch_draft)
               world_after_one).2
      ∧ conversation_counter
          (generate_single_reply sample_key ascii_upper E' (Some lunch_draft)
             world_after_one).2
        = conversation_counter
            (generate_single_reply sample_key ascii_upper
               (env_text (u "Sounds great")) (Some lunch_draft)
               world_after_one).2.
Proof.
  apply (rephrase_mode_still_queries sample_key ascii_upper
           (env_text (u "Sounds great")) lunch_draft world_after_one rebel
           [first_record]); vm_compute; reflexivity.
Defined.

(** ** Defaults and validation *)

Section Defaults.

Variable GEMINI_API_KEY : list N.
Variable upper : list N → list N.




End Defaults.


(** ** The cap on a chat's memory *)

Lemma number_from_app (a b : list (nat → conversation)) : ∀ k,
  number_from k (a ++ b) = number_from k a ++ number_from (k + length a) b.
Proof.
  induction a as [|f a IH]; intros k; simpl.
  - by rewrite Nat.add_0_r.
  - rewrite IH. do 3 f_equal. lia.
Qed.

Lemma length_number_from (fs : list (nat → conversation)) : ∀ k,
  length (number_from k fs) = length fs.
Proof. induction fs as [|f fs IH]; intros k; simpl; [done | by rewrite IH]. Qed.

Lemma number_from_ids (c : list N) (fs : list (nat → conversation)) : ∀ k,
  Forall (minted_for c) fs →
  record_id <$> number_from k fs = mint_id c <$> seq k (length fs).
Proof.
  induction fs as [|f fs IH]; intros k Hfs; [done |].
  apply Forall_cons in Hfs as [Hf Hfs]. cbn [number_from length seq].
  rewrite !fmap_cons, Hf. f_equal. by apply IH.
Qed.

Lemma increasing_seq (k n : nat) : increasing (seq k n).
Proof.
  intros i j a b [-> _]%lookup_seq [-> _]%lookup_seq Hij. lia.
Qed.

Lemma numbered_number_from (c : list N) (fs : list (nat → conversation))
    (j : nat) :
  Forall (minted_for c) fs →
  numbered c (length fs) (drop j (number_from 1 fs)).
Proof.
  intros Hfs. exists (drop j (seq 1 (length fs))). split_and!.
  - by rewrite !fmap_drop, (number_from_ids c).
  - apply increasing_drop, increasing_seq.
  - apply Forall_drop, Forall_seq. intros i Hi. lia.
Qed.

Lemma drop_cap_snoc {A} (R : list A) (x : A) :
  drop (length (drop (length R - 20) R ++ [x]) - 20)
    (drop (length R - 20) R ++ [x])
  = drop (length R + 1 - 20) (R ++ [x]).
Proof.
  rewrite length_app, length_drop. simpl.
  destruct (decide (length R ≤ 20)) as [Hle | Hgt].
  - replace (length R - 20) with 0 by lia. simpl.
    f_equal. lia.
  - replace (length R - (length R - 20) + 1 - 20) with 1 by lia.
    rewrite <- (drop_app_le R [x] (length R - 20)) by lia.
    rewrite drop_drop. f_equal. lia.
Qed.

Section Cap.

Variable GEMINI_API_KEY : list N.
Variable upper : list N → list N.

Lemma chat_holds_same_memory (c : list N) (acc : list (nat → conversation))
    (w w' : world) :
  CHAT_COLLECTIONS w' !! c = CHAT_COLLECTIONS w !! c →
  conversation_counter w' !! c = conversation_counter w !! c →
  chat_holds c acc w → chat_holds c (acc ++ []) w'.
Proof. unfold chat_holds. rewrite app_nil_r. by intros -> ->. Qed.

(** One more exchange stored in the chat. *)
Lemma chat_holds_stored (E : env) (c msg p st resp : list N)
    (acc : list (nat → conversation)) (l : list conversation) (n : nat)
    (w : world) :
  CHAT_COLLECTIONS w !! c = Some l →
  conversation_counter w !! c = Some n →
  chat_holds c acc w →
  chat_holds c (acc ++ [new_record E c msg p st resp])
    (stored E c msg p st resp l n w).
Proof.
  intros Hl Hn (Hc & Hk & Hfs).
  rewrite Hl in Hc. injection Hc as ->.
  rewrite Hn in Hk. injection Hk as ->.
  unfold chat_holds, stored. simpl. rewrite !lookup_insert_eq.
  split_and!.
  - f_equal.
    destruct (stored_records E c msg p st resp (length acc) _
                (numbered_number_from c acc (length acc - 20) Hfs))
      as [-> _].
    rewrite number_from_app. cbn [number_from].
    rewrite (length_app acc [new_record E c msg p st resp]). cbn [length].
    replace (1 + length acc) with (length acc + 1) by lia.
    rewrite <- (length_number_from acc 1).
    apply drop_cap_snoc.
  - by rewrite length_app.
  - apply Forall_app. split; [done |]. by repeat constructor.
Qed.

(** Serving a request other than the clearing of [c] keeps [c] holding
    its exchanges, the one of this request included. *)
Lemma chat_holds_serve (c : list N) (acc : list (nat → conversation))
    (r : request) (w : world) :
  r ≠ ClearMemory c →
  chat_holds c acc w →
  chat_holds c
    (acc ++ option_list (exchange_of c r (serve GEMINI_API_KEY upper r w).1))
    (serve GEMINI_API_KEY upper r w).2.
Proof.
  intros Hr Hacc. destruct r as [E data | c']; simpl.
  - destruct (generate_single_reply_cases GEMINI_API_KEY upper E data w)
      as [(st & err & _ & ->) | (d & si & l & -> & Hmsg & Hp & Hl & H)].
    { simpl. destruct data; by apply (chat_holds_same_memory c acc w). }
    cbv zeta in H.
    destruct (retrieval_memory E (req_chat_id d) (req_message d) 3 l w)
      as [Hc1 Hc2].
    destruct H as [(n & Hn & ->) | (Hn & ->)]; simpl.
    + destruct (reply_to _ _ _) as [t ps | err]; simpl.
      * case_bool_decide as Hchat; simpl.
        -- subst c. apply chat_holds_stored; rewrite ?Hc1, ?Hc2; try done.
           rewrite <- (app_nil_r acc).
           apply (chat_holds_same_memory _ acc w); by rewrite ?Hc1, ?Hc2.
        -- apply (chat_holds_same_memory c acc w); [| | done]; simpl;
             by rewrite lookup_insert_ne, ?Hc1, ?Hc2.
      * apply (chat_holds_same_memory c acc w); by rewrite ?Hc1, ?Hc2.
    + destruct (reply_to _ _ _) eqn:Hrep; simpl;
        apply (chat_holds_same_memory c acc w); by rewrite ?Hc1, ?Hc2.
  - assert (c' ≠ c) as Hne by congruence.
    destruct (CHAT_COLLECTIONS w !! c') as [l |] eqn:Hl.
    + rewrite (clear_memory_run c' w l Hl). simpl.
      apply (chat_holds_same_memory c acc w); [| | done]; simpl;
        by rewrite lookup_insert_ne.
    + rewrite (clear_memory_unknown c' w Hl). simpl.
      by apply (chat_holds_same_memory c acc w).
Qed.

Lemma chat_holds_serve_all (c : list N) (rs : list request) :
  ∀ (acc : list (nat → conversation)) (w : world),
  ClearMemory c ∉ rs →
  chat_holds c acc w →
  chat_holds c
    (acc ++ exchanges c rs (serve_all GEMINI_API_KEY upper rs w).1)
    (serve_all GEMINI_API_KEY upper rs w).2.
Proof.
  induction rs as [|r rs IH]; intros acc w Hrs Hacc.
  - simpl. by apply (chat_holds_same_memory c acc w).
  - apply not_elem_of_cons in Hrs as [Hr Hrs].
    pose proof (chat_holds_serve c acc r w (not_eq_sym Hr) Hacc) as Hstep.
    cbn [serve_all].
    destruct (serve GEMINI_API_KEY upper r w) as [o w1] eqn:Hs1.
    cbn [fst snd] in Hstep.
    pose proof (IH _ _ Hrs Hstep) as Hrest.
    destruct (serve_all GEMINI_API_KEY upper rs w1) as [os w2] eqn:Hs2.
    cbn [fst snd exchanges] in *. by rewrite (assoc_L (++)).
Qed.

(** C1: take a chat whose memory is empty and whose counter is at zero,
    as at start and after a clear, and let the service answer any
    requests that do not clear this chat.  With [n] the number of
    generations for this chat that were answered with a reply, the chat
    then holds the last [min n 20] of their records, in the order of the
    requests, numbered 1 to [n], and the counter is at [n].  In every
    world the service can reach a chat holds at most twenty records, and
    the memory writer leaves the old records and the new one less the
    oldest beyond twenty. *)
Theorem memory_holds_most_recent :
  (∀ (c : list N) (rs : list request) (w : world),
     CHAT_COLLECTIONS w !! c = Some [] →
     conversation_counter w !! c = Some 0 →
     ClearMemory c ∉ rs →
     let w' := (serve_all GEMINI_API_KEY upper rs w).2 in
     let answers := (serve_all GEMINI_API_KEY upper rs w).1 in
     let records := number_from 1 (exchanges c rs answers) in
     let n := length (exchanges c rs answers) in
     CHAT_COLLECTIONS w' !! c = Some (drop (n - 20) records)
     ∧ length (drop (n - 20) records) = min n 20
     ∧ length records = n
     ∧ conversation_counter w' !! c = Some n)
  ∧ (∀ (w : world) (c : list N) (l : list conversation),
       reachable GEMINI_API_KEY upper w →
       CHAT_COLLECTIONS w !! c = Some l → length l ≤ 20)
  ∧ (∀ (w : world) (c : list N) (l : list conversation) (n : nat)
       E msg p st resp,
       reachable GEMINI_API_KEY upper w →
       CHAT_COLLECTIONS w !! c = Some l →
       conversation_counter w !! c = Some n →
       let x := new_record E c msg p st resp (n + 1) in
       CHAT_COLLECTIONS (store_conversation_rag E c msg p st resp w).2 !! c
       = Some (drop (length (l ++ [x]) - 20) (l ++ [x]))).
Proof.
  split_and!.
  - intros c rs w Hl Hn Hrs w' answers records n.
    assert (chat_holds c [] w) as H0 by (split_and!; done).
    pose proof (chat_holds_serve_all c rs [] w Hrs H0) as (Hc & Hk & _).
    rewrite app_nil_l in Hc, Hk.
    split_and!; [done | | apply length_number_from | done].
    rewrite length_drop. unfold records. rewrite length_number_from.
    fold n. lia.
  - intros w c l Hreach Hl.
    pose proof (reachable_world_ok _ _ _ Hreach) as Hok.
    destruct (world_ok_counter w c Hok (mk_is_Some _ _ Hl)) as [n Hn].
    destruct Hok as (_ & _ & Hnum). by destruct (Hnum c l n Hl Hn).
  - intros w c l n E msg p st resp Hreach Hl Hn x.
    pose proof (reachable_world_ok _ _ _ Hreach) as (_ & _ & Hnum).
    destruct (Hnum c l n Hl Hn) as [Hnl _].
    rewrite (store_conversation_rag_run E c msg p st resp w l n Hl Hn).
    unfold stored. simpl. rewrite lookup_insert_eq.
    by destruct (stored_records E c msg p st resp n l Hnl) as [-> _].
Qed.

End Cap.

Lemma memory_holds_most_recent_witness :
  let w' := (serve_all sample_key ascii_upper twenty_one_requests
               initial_world).2 in
  let answers := (serve_all sample_key ascii_upper twenty_one_requests
                    initial_world).1 in
  let records := number_from 1
                   (exchanges (u "Timo") twenty_one_requests answers) in
  let n := length (exchanges (u "Timo") twenty_one_requests answers) in
  CHAT_COLLECTIONS w' !! u "Timo" = Some (drop (n - 20) records)
  ∧ length (drop (n - 20) records) = min n 20
  ∧ length records = n
  ∧ conversation_counter w' !! u "Timo" = Some n.
Proof.
  apply (proj1 (memory_holds_most_recent sample_key ascii_upper) (u "Timo")
           twenty_one_requests initial_world).
  - reflexivity.
  - reflexivity.
  - intros H. apply elem_of_replicate_inv in H. discriminate H.
Defined.

(** Twenty-one answered generations leave the records numbered 2 to 21. *)
Example twenty_one_generations :
  length (exchanges (u "Timo") twenty_one_requests
            (serve_all sample_key ascii_upper twenty_one_requests
               initial_world).1) = 21
  ∧ record_id
      <$> contents (serve_all sample_key ascii_upper twenty_one_requests
                      initial_world).2 (u "Timo")
    = mint_id (u "Timo") <$> seq 2 20.
Proof. split; vm_compute; reflexivity. Qed.

(** ** Further properties of the text utilities *)

Lemma u_space : u " " = [32%N].
Proof. reflexivity. Qed.

Lemma sub_quoted_from_elem (s : list N) : ∀ k x,
  x ∈ sub_quoted_from k s → x ∈ s ∨ x = 32%N.
Proof.
  induction s as [|c r IH]; intros k x Hx; [by left |].
  destruct k as [|k].
  - rewrite sub_quoted_from_0 in Hx.
    destruct (match_quoted (c :: r)) as [g |] eqn:Hm.
    + apply match_quoted_spec in Hm as (w & c' & rest & Heq & _).
      rewrite u_space in Hx.
      apply elem_of_cons in Hx as [-> | Hx]; [by right |].
      apply elem_of_app in Hx as [Hx | Hx].
      { left. rewrite Heq. do 2 right. apply elem_of_app. by left. }
      apply elem_of_cons in Hx as [-> | Hx]; [by right |].
      destruct (IH _ _ Hx) as [H | H]; [left; by right | by right].
    + apply elem_of_cons in Hx as [-> | Hx]; [left; by left |].
      destruct (IH _ _ Hx) as [H | H]; [left; by right | by right].
  - cbn [sub_quoted_from] in Hx.
    destruct (IH _ _ Hx) as [H | H]; [left; by right | by right].
Qed.

Lemma sub_quoted_from_length (s : list N) : ∀ k,
  length (sub_quoted_from k s) + min k (length s) ≤ length s.
Proof.
  induction s as [|c r IH]; intros k; [simpl; lia |].
  destruct k as [|k].
  - rewrite sub_quoted_from_0.
    destruct (match_quoted (c :: r)) as [g |] eqn:Hm.
    + apply match_quoted_spec in Hm as (w & c' & rest & Heq & _).
      injection Heq as -> ->.
      pose proof (IH (length g + 3)) as H.
      rewrite u_space. rewrite !length_app in *. simpl in *.
      rewrite !length_app in *. simpl in *. lia.
    + pose proof (IH 0) as H. simpl in *. lia.
  - cbn [sub_quoted_from]. pose proof (IH k) as H. simpl. lia.
Qed.

Lemma quote_then_space_elem (t : list N) :
  quote_then_space t = true → 34%N ∈ t.
Proof.
  induction t as [|q t IH]; [done |].
  destruct t as [|c t']; [done |].
  cbn [quote_then_space]. intros [H | H]%orb_true_iff.
  - apply andb_true_iff in H as [->%N.eqb_eq _]. by left.
  - right. by apply IH.
Qed.

Lemma strip_parts (s : list N) : ∃ a b, s = a ++ strip s ++ b.
Proof. destruct (strip_spec s) as [(a & b & H & _) _]. eauto. Qed.

Lemma clean_text_filter (s : list N) :
  clean_text s = sub_quoted (filter (λ c, c ≠ 95%N ∧ c ≠ 42%N) (strip s)).
Proof. unfold clean_text. by rewrite replace_empty_both. Qed.

(** X1: the cleaned text holds no asterisk and no underscore; each of its
    characters is one of the generated text or a space; it is never
    longer than the generated text; and a generated text without double
    quotes only loses the whitespace at its ends and its asterisks and
    underscores. *)
Theorem clean_text_output (s : list N) :
  (∀ x, x ∈ clean_text s →
        x ≠ 42%N ∧ x ≠ 95%N ∧ (x ∈ s ∨ x = 32%N))
  ∧ length (clean_text s) ≤ length s
  ∧ (34%N ∉ s →
     clean_text s = filter (λ c, c ≠ 95%N ∧ c ≠ 42%N) (strip s)).
Proof.
  destruct (strip_parts s) as (a & b & Hs).
  assert (∀ x, x ∈ strip s → x ∈ s) as Hsub.
  { intros x Hx. rewrite Hs. apply elem_of_app. right.
    apply elem_of_app. by left. }
  rewrite clean_text_filter. split_and!.
  - intros x Hx. apply sub_quoted_from_elem in Hx as [Hx | ->].
    + apply list_elem_of_filter in Hx as [[H1 H2] Hx]. auto.
    + split_and!; [done | done | by right].
  - pose proof (sub_quoted_from_length
                  (filter (λ c, c ≠ 95%N ∧ c ≠ 42%N) (strip s)) 0) as H1.
    pose proof (length_filter (λ c, c ≠ 95%N ∧ c ≠ 42%N) (strip s)) as H2.
    assert (length (strip s) ≤ length s) as H3.
    { rewrite Hs at 2. rewrite !length_app. lia. }
    unfold sub_quoted. lia.
  - intros Hq. apply sub_quoted_unchanged.
    destruct (quote_then_space _) eqn:E; [| done].
    apply quote_then_space_elem in E.
    apply list_elem_of_filter in E as [_ E]. destruct Hq. by apply Hsub.
Qed.

(** *** Words *)

Lemma split_from_Some_ne (s : list N) : ∀ x, split_from (Some x) s ≠ [].
Proof.
  induction s as [|c r IH]; intros x; simpl; [done |].
  destruct (isspace c); [done | apply IH].
Qed.

Lemma split_nil (s : list N) :
  split s = [] ↔ Forall (λ c, isspace c = true) s.
Proof.
  unfold split. induction s as [|c r IH]; simpl; [by split |].
  destruct (isspace c) eqn:Hc.
  - rewrite IH. split; [by constructor | by inversion 1].
  - split; [by intros ?%split_from_Some_ne | inversion 1; congruence].
Qed.

Lemma lstrip_nil (s : list N) :
  lstrip s = [] ↔ Forall (λ c, isspace c = true) s.
Proof.
  induction s as [|c r IH]; simpl; [by split |].
  destruct (isspace c) eqn:Hc.
  - rewrite IH. split; [by constructor | by inversion 1].
  - split; [done | inversion 1; congruence].
Qed.

Lemma strip_nil (s : list N) :
  strip s = [] ↔ Forall (λ c, isspace c = true) s.
Proof.
  unfold strip. split.
  - intros H. apply lstrip_nil.
    destruct (rstrip_split (lstrip s)) as (b & Hb & Hsp).
    rewrite H in Hb. simpl in Hb.
    destruct (lstrip s) as [|c r] eqn:E; [done |].
    apply lstrip_head in E. rewrite <- Hb in Hsp.
    apply Forall_cons in Hsp as [Hc _]. congruence.
  - intros H. apply lstrip_nil in H. by rewrite H.
Qed.

Lemma split_from_words (s : list N) : ∀ w,
  (∀ x, w = Some x → x ≠ [] ∧ Forall (λ c, isspace c = false) x) →
  Forall (λ word, word ≠ [] ∧ Forall (λ c, isspace c = false) word)
    (split_from w s).
Proof.
  assert (∀ x : list N,
            x ≠ [] ∧ Forall (λ c, isspace c = false) x →
            reverse x ≠ [] ∧ Forall (λ c, isspace c = false) (reverse x))
    as Hrev.
  { intros x [Hne Hx]. split; [| by apply Forall_reverse].
    intros H. apply Hne. by rewrite <- (reverse_involutive x), H. }
  induction s as [|c r IH]; intros w Hw; simpl.
  - destruct w as [x |]; [| constructor].
    constructor; [| constructor]. by apply Hrev, Hw.
  - destruct (isspace c) eqn:Hc.
    + destruct w as [x |].
      * constructor; [by apply Hrev, Hw |]. by apply IH.
      * by apply IH.
    + apply IH. intros x [= <-]. split; [done |].
      constructor; [done |]. destruct w as [y |]; simpl; [| constructor].
      by apply Hw.
Qed.

(** X2: a message passes the test of the route, being non-empty once
    stripped, exactly when it has at least one word; the words that
    [split] counts are non-empty and free of whitespace. *)
Theorem accepted_message_has_a_word (s : list N) :
  (truthy (strip s) = true ↔ 1 ≤ length (split s))
  ∧ Forall (λ word, word ≠ [] ∧ Forall (λ c, isspace c = false) word)
      (split s).
Proof.
  split; [| by apply split_from_words].
  pose proof (strip_nil s) as H1. pose proof (split_nil s) as H2.
  destruct (strip s) as [|c r] eqn:E1; destruct (split s) as [|x l] eqn:E2;
    simpl; split; try done; try lia.
  - intros _. assert (@nil N = []) as H by done.
    apply H1, H2 in H. done.
  - intros _. assert (@nil (list N) = []) as H by done.
    apply H2, H1 in H. done.
Qed.

(** ** Reading the upstream answer *)

Lemma read_response_first_text (persona_name : list N) (data : api_data)
    (cand : candidate) (rest : list candidate) :
  candidates data = Some (cand :: rest) →
  read_response persona_name data
  = if truthy (first_text cand) then
      Success (clean_text (first_text cand)) persona_name
    else if bool_decide (default (u "UNKNOWN") (finishReason cand)
                         = u "MAX_TOKENS") then
      Failure (u "Response cut off (MAX_TOKENS).")
    else if bool_decide (default (u "UNKNOWN") (finishReason cand)
                         = u "SAFETY") then
      Failure (u "Response blocked by safety filters.")
    else
      Failure (u "No text generated. Reason: "
               ++ default (u "UNKNOWN") (finishReason cand)).
Proof. intros H. unfold read_response, first_text. by rewrite H. Qed.

(** X3: the answer is read as a reply exactly when the first part of the
    first candidate has text, whatever the finish reason and whatever
    the other candidates and parts hold; the reply is that text
    cleaned.  Otherwise the error says that there are no candidates, or,
    by the finish reason of the first candidate, that the response was
    cut off, blocked, or empty for the reason given, UNKNOWN when
    none is. *)
Theorem read_response_cases (persona_name : list N) (data : api_data) :
  (∀ t p,
     read_response persona_name data = Success t p ↔
     ∃ cand rest,
       candidates data = Some (cand :: rest)
       ∧ first_text cand ≠ []
       ∧ t = clean_text (first_text cand) ∧ p = persona_name)
  ∧ (∀ err,
       read_response persona_name data = Failure err ↔
       ((candidates data = None ∨ candidates data = Some [])
        ∧ err = u "No candidates in response.")
       ∨ ∃ cand rest,
           candidates data = Some (cand :: rest)
           ∧ first_text cand = []
           ∧ (finishReason cand = Some (u "MAX_TOKENS")
              ∧ err = u "Response cut off (MAX_TOKENS)."
              ∨ finishReason cand = Some (u "SAFETY")
                ∧ err = u "Response blocked by safety filters."
              ∨ finishReason cand ≠ Some (u "MAX_TOKENS")
                ∧ finishReason cand ≠ Some (u "SAFETY")
                ∧ err = u "No text generated. Reason: "
                        ++ default (u "UNKNOWN") (finishReason cand))).
Proof.
  destruct (candidates data) as [[|cand rest] |] eqn:Hc.
  - split.
    + intros t p. unfold read_response. rewrite Hc.
      split; [done | by intros (? & ? & ? & _)].
    + intros err. unfold read_response. rewrite Hc. split.
      * intros [= <-]. left. auto.
      * intros [[_ ->] | (? & ? & ? & _)]; done.
  - rewrite (read_response_first_text persona_name data cand rest Hc).
    assert (∀ r : list N, default (u "UNKNOWN") (finishReason cand) = r →
              r ≠ u "UNKNOWN" → finishReason cand = Some r) as Hdef.
    { intros r Hr Hne. destruct (finishReason cand); simpl in Hr; congruence. }
    split.
    + intros t p. destruct (first_text cand) as [|c0 r0] eqn:Ht; simpl.
      * split; [repeat case_bool_decide; done |].
        intros (? & ? & [= <- <-] & Hne & _). by rewrite Ht in Hne.
      * split.
        -- intros [= <- <-]. exists cand, rest. by rewrite Ht.
        -- intros (? & ? & [= <- <-] & _ & -> & ->). by rewrite Ht.
    + intros err. destruct (first_text cand) as [|c0 r0] eqn:Ht; simpl.
      * split.
        -- intros H. right. exists cand, rest. split_and!; [done | done |].
           repeat case_bool_decide; injection H as <-.
           ++ left. split; [| done]. by apply Hdef.
           ++ right. left. split; [| done]. by apply Hdef.
           ++ right. right. split_and!; [| | done].
              ** intros Hf. by rewrite Hf in *.
              ** intros Hf. by rewrite Hf in *.
        -- intros [[[? | ?] _] | (? & ? & [= <- <-] & _ & H)]; [done | done |].
           destruct H as [[Hf ->] | [[Hf ->] | (Hf1 & Hf2 & ->)]].
           ++ rewrite Hf. reflexivity.
           ++ rewrite Hf. reflexivity.
           ++ rewrite bool_decide_eq_false_2.
              2:{ intros H. apply Hf1, Hdef; done. }
              rewrite bool_decide_eq_false_2; [done |].
              intros H. apply Hf2, Hdef; done.
      * split; [done |].
        intros [[[? | ?] _] | (? & ? & [= <- <-] & Hne & _)]; [done | done |].
        by rewrite Ht in Hne.
  - split.
    + intros t p. unfold read_response. rewrite Hc.
      split; [done | by intros (? & ? & ? & _)].
    + intros err. unfold read_response. rewrite Hc. split.
      * intros [= <-]. left. auto.
      * intros [[_ ->] | (? & ? & ? & _)]; done.
Qed.

(** ** Further properties of the routes *)

Lemma read_response_Success (persona_name : list N) (data : api_data)
    (t p : list N) :
  read_response persona_name data = Success t p →
  p = persona_name ∧ ∃ raw, t = clean_text raw.
Proof.
  unfold read_response.
  destruct (candidates data) as [[|cand rest] |]; try done.
  destruct (truthy _); [| repeat case_bool_decide; done].
  intros [= <- <-]. eauto.
Qed.

Lemma reply_to_Success (E : env) (persona_name : list N) (py : payload)
    (t p : list N) :
  reply_to E persona_name py = Success t p →
  p = persona_name ∧ ∃ raw, t = clean_text raw.
Proof.
  unfold reply_to. destruct (requests_post E py); [| done].
  apply read_response_Success.
Qed.

Lemma last_stored (E : env) (c msg p st resp : list N) (n : nat)
    (l : list conversation) :
  numbered c n l →
  let x := new_record E c msg p st resp (n + 1) in
  last (enforce_cap (add_record x l)) = Some x
  ∧ length (enforce_cap (add_record x l)) = min (length l + 1) 20.
Proof.
  intros Hnum x. subst x.
  destruct (stored_records E c msg p st resp n l Hnum) as [Heq _].
  rewrite Heq. split.
  - rewrite drop_app_le by (rewrite length_app; simpl; lia).
    apply last_snoc.
  - rewrite length_drop, length_app. simpl. lia.
Qed.

Lemma get_memory_entries (l : list conversation) :
  (λ x : list N * metadata * list N,
     {| entry_id := x.2;
        entry_user_message := x.1.1;
        entry_response := md_response x.1.2;
        entry_persona := md_persona x.1.2;
        entry_timestamp := md_timestamp x.1.2 |})
    <$> zip (zip (record_document <$> l) (record_metadata <$> l))
          (record_id <$> l)
  = entry_of <$> l.
Proof. induction l as [|x l IH]; [done |]. simpl. f_equal. exact IH. Qed.

Lemma get_memory_run (c : list N) (w : world) (l : list conversation) :
  CHAT_COLLECTIONS w !! c = Some l →
  get_memory c w = (Ok (200, JMemory c (entry_of <$> l) (length l)), w).
Proof.
  intros Hl. unfold get_memory.
  erewrite bind_ok; [| apply in_CHAT_COLLECTIONS_run].
  rewrite Hl. rewrite bool_decide_eq_true_2 by eauto. cbn [negb].
  erewrite bind_ok.
  2:{ unfold getitem_CHAT_COLLECTIONS. by rewrite Hl. }
  apply try_except_ok.
  assert (contents w c = l) as Hcont by (unfold contents; by rewrite Hl).
  erewrite bind_ok; [| reflexivity]. cbv zeta. rewrite Hcont.
  by rewrite get_memory_entries, length_fmap.
Qed.

Lemma get_memory_unknown (c : list N) (w : world) :
  CHAT_COLLECTIONS w !! c = None →
  get_memory c w = (Ok (400, JMemoryError (u "Invalid chat ID")), w).
Proof.
  intros Hl. unfold get_memory.
  erewrite bind_ok; [| apply in_CHAT_COLLECTIONS_run].
  rewrite Hl. rewrite bool_decide_eq_false_2; [done |]. by intros [? ?].
Qed.

Section MoreRoutes.

Variable GEMINI_API_KEY : list N.
Variable upper : list N → list N.

(** What a request answered with a reply has done. *)
Lemma generate_success_inv (E : env) (d : gmap (list N) (list N))
    (w w' : world) (resp : response) (t ps : list N) :
  world_ok w →
  generate_single_reply GEMINI_API_KEY upper E (Some d) w = (Ok resp, w') →
  body resp = JReply (Success t ps) →
  ∃ si l n,
    truthy (req_message d) = true
    ∧ dict_get PERSONAS (req_persona d) = Some si
    ∧ CHAT_COLLECTIONS w !! req_chat_id d = Some l
    ∧ conversation_counter w !! req_chat_id d = Some n
    ∧ numbered (req_chat_id d) n l
    ∧ status resp = 200
    ∧ ps = req_persona d
    ∧ (∃ raw, t = clean_text raw)
    ∧ w' = stored E (req_chat_id d) (req_message d) (req_persona d)
             (req_stance d) t l n
             (retrieval E (req_chat_id d) (req_message d) 3 l w).2.
Proof.
  intros Hok Hrun Hbody.
  destruct (generate_single_reply_cases GEMINI_API_KEY upper E (Some d) w)
    as [(st & err & _ & H) | (d' & si & l & [= <-] & Hmsg & Hp & Hl & H)].
  { rewrite H in Hrun. injection Hrun as <- <-. done. }
  cbv zeta in H. destruct H as [(n & Hn & H) | (Hn & H)].
  - rewrite H in Hrun. injection Hrun as <- <-. simpl in Hbody.
    injection Hbody as Hr. rewrite Hr.
    destruct (reply_to_Success _ _ _ _ _ Hr) as [-> Hraw].
    destruct Hok as (_ & _ & Hnum). destruct (Hnum _ _ _ Hl Hn) as [Hnl _].
    exists si, l, n. split_and!; done.
  - rewrite H in Hrun. injection Hrun as <- <-.
    by destruct (reply_to _ _ _).
Qed.

(** X4: a request answered with a reply has been stored: the answer has
    status 200 and names the persona asked for, the reply is a cleaned
    text, the counter of the chat has gone up by one, and the last
    record of the chat is this exchange, under the new counter value,
    with the stripped message, the reply as sent back, the persona, the
    stance and the time; the chat holds one record more, twenty at
    most. *)
Theorem generate_stores_exchange (E : env) (d : gmap (list N) (list N))
    (w w' : world) (resp : response) (t ps : list N) :
  reachable GEMINI_API_KEY upper w →
  generate_single_reply GEMINI_API_KEY upper E (Some d) w = (Ok resp, w') →
  body resp = JReply (Success t ps) →
  status resp = 200
  ∧ ps = req_persona d
  ∧ (∃ raw, t = clean_text raw)
  ∧ ∃ l n recs,
      CHAT_COLLECTIONS w !! req_chat_id d = Some l
      ∧ conversation_counter w !! req_chat_id d = Some n
      ∧ conversation_counter w' !! req_chat_id d = Some (n + 1)
      ∧ CHAT_COLLECTIONS w' !! req_chat_id d = Some recs
      ∧ length recs = min (length l + 1) 20
      ∧ last recs
        = Some {| record_id := req_chat_id d ++ u "_" ++ u (pretty (n + 1));
                  record_document := req_message d;
                  record_metadata :=
                    {| md_response := t;
                       md_persona := req_persona d;
                       md_stance := req_stance d;
                       md_timestamp := now_isoformat E |} |}.
Proof.
  intros Hreach Hrun Hbody.
  pose proof (reachable_world_ok _ _ _ Hreach) as Hok.
  destruct (generate_success_inv E d w w' resp t ps Hok Hrun Hbody)
    as (si & l & n & _ & _ & Hl & Hn & Hnum & Hst & Hps & Hraw & ->).
  split_and!; try done.
  exists l, n. eexists. unfold stored. simpl. rewrite !lookup_insert_eq.
  split_and!; try done.
  - by apply last_stored.
  - by apply (last_stored E _ (req_message d) (req_persona d) (req_stance d) t).
Qed.

(** X5: serving a request leaves every chat it is not about as it was. *)
Theorem other_chats_untouched (r : request) (w : world) (c : list N) :
  target r ≠ Some c →
  CHAT_COLLECTIONS (serve GEMINI_API_KEY upper r w).2 !! c
    = CHAT_COLLECTIONS w !! c
  ∧ conversation_counter (serve GEMINI_API_KEY upper r w).2 !! c
    = conversation_counter w !! c.
Proof.
  intros Ht. destruct r as [E data | c']; simpl.
  - destruct (generate_single_reply_cases GEMINI_API_KEY upper E data w)
      as [(st & err & _ & ->) | (d & si & l & -> & Hmsg & Hp & Hl & H)];
      [done |].
    cbv zeta in H. simpl in Ht.
    assert (req_chat_id d ≠ c) as Hne by congruence.
    destruct (retrieval_memory E (req_chat_id d) (req_message d) 3 l w)
      as [Hc1 Hc2].
    destruct H as [(n & Hn & ->) | (Hn & ->)]; simpl.
    + destruct (reply_to _ _ _); simpl;
        by rewrite ?lookup_insert_ne, Hc1, Hc2.
    + by rewrite Hc1, Hc2.
  - simpl in Ht. assert (c' ≠ c) as Hne by congruence.
    destruct (CHAT_COLLECTIONS w !! c') as [l |] eqn:Hl.
    + rewrite (clear_memory_run c' w l Hl). simpl.
      by rewrite !lookup_insert_ne.
    + by rewrite (clear_memory_unknown c' w Hl).
Qed.

(** X6: when the call to the generation API raises, a request that has
    passed validation is answered with status 200 and a failure whose
    error is the text of the exception behind a fixed prefix; nothing is
    stored. *)
Theorem upstream_error_is_reported (E : env) (d : gmap (list N) (list N))
    (w : world) (e : exn) :
  truthy GEMINI_API_KEY = true →
  truthy (req_message d) = true →
  is_Some (dict_get PERSONAS (req_persona d)) →
  is_Some (CHAT_COLLECTIONS w !! req_chat_id d) →
  (∀ p, requests_post E p = Raise e) →
  ∃ w',
    generate_single_reply GEMINI_API_KEY upper E (Some d) w
    = (Ok {| status := 200;
             body := JReply (Failure (u "Generation Error: "
                                      ++ str_of_exn e)) |}, w')
    ∧ CHAT_COLLECTIONS w' = CHAT_COLLECTIONS w
    ∧ conversation_counter w' = conversation_counter w.
Proof.
  intros Hkey Hmsg [si Hp] [l Hl] Hpost.
  destruct (retrieval_memory E (req_chat_id d) (req_message d) 3 l w)
    as [Hc1 Hc2].
  assert (∀ p, reply_to E (req_persona d) p
               = Failure (u "Generation Error: " ++ str_of_exn e)) as Hr.
  { intros p. unfold reply_to. by rewrite Hpost. }
  destruct (conversation_counter w !! req_chat_id d) as [n |] eqn:Hn.
  - rewrite (generate_single_reply_run GEMINI_API_KEY upper E d w si l n)
      by done.
    rewrite Hr. eauto.
  - rewrite (generate_single_reply_no_counter GEMINI_API_KEY upper E d w si l)
      by done.
    rewrite Hr. eauto.
Qed.

End MoreRoutes.

Lemma generate_stores_exchange_witness :
  status {| status := 200;
            body := JReply (Success (u "sure thing") (u "The Rebel")) |} = 200
  ∧ u "The Rebel" = req_persona pineapple
  ∧ (∃ raw, u "sure thing" = clean_text raw)
  ∧ ∃ l n recs,
      CHAT_COLLECTIONS initial_world !! req_chat_id pineapple = Some l
      ∧ conversation_counter initial_world !! req_chat_id pineapple = Some n
      ∧ conversation_counter world_after_one !! req_chat_id pineapple
        = Some (n + 1)
      ∧ CHAT_COLLECTIONS world_after_one !! req_chat_id pineapple = Some recs
      ∧ length recs = min (length l + 1) 20
      ∧ last recs
        = Some {| record_id :=
                    req_chat_id pineapple ++ u "_" ++ u (pretty (n + 1));
                  record_document := req_message pineapple;
                  record_metadata :=
                    {| md_response := u "sure thing";
                       md_persona := req_persona pineapple;
                       md_stance := req_stance pineapple;
                       md_timestamp :=
                         now_isoformat (env_text (u "sure thing")) |} |}.
Proof.
  apply (generate_stores_exchange sample_key ascii_upper
           (env_text (u "sure thing")) pineapple initial_world world_after_one
           {| status := 200;
              body := JReply (Success (u "sure thing") (u "The Rebel")) |}).
  - apply reachable_initial.
  - vm_compute. reflexivity.
  - reflexivity.
Defined.

Lemma other_chats_untouched_witness :
  CHAT_COLLECTIONS
    (serve sample_key ascii_upper
       (Generate (env_text (u "sure thing")) (Some pineapple))
       initial_world).2 !! u "Shark"
    = CHAT_COLLECTIONS initial_world !! u "Shark"
  ∧ conversation_counter
      (serve sample_key ascii_upper
         (Generate (env_text (u "sure thing")) (Some pineapple))
         initial_world).2 !! u "Shark"
    = conversation_counter initial_world !! u "Shark".
Proof.
  apply (other_chats_untouched sample_key ascii_upper
           (Generate (env_text (u "sure thing")) (Some pineapple))
           initial_world (u "Shark")).
  vm_compute. discriminate.
Defined.

Lemma upstream_error_is_reported_witness :
  ∃ w',
    generate_single_reply sample_key ascii_upper env_offline (Some pineapple)
      world_after_one
    = (Ok {| status := 200;
             body := JReply (Failure
                       (u "Generation Error: "
                        ++ str_of_exn (OtherError (u "connection refused")))) |},
       w')
    ∧ CHAT_COLLECTIONS w' = CHAT_COLLECTIONS world_after_one
    ∧ conversation_counter w' = conversation_counter world_after_one.
Proof.
  apply (upstream_error_is_reported sample_key ascii_upper env_offline
           pineapple world_after_one (OtherError (u "connection refused"))).
  - reflexivity.
  - reflexivity.
  - exists rebel. reflexivity.
  - exists [first_record]. vm_compute. reflexivity.
  - reflexivity.
Defined.

(** ** Rejected requests, queries and gaps *)



Section MoreInvariants.

Variable GEMINI_API_KEY : list N.
Variable upper : list N → list N.





(** X9: a generate request issues at most one similarity query, and only
    once it has passed validation and its chat holds records: the query
    is for the stripped message, against the chat named, and asks for
    as many results as the chat holds, three at most. *)
Theorem at_most_one_query (E : env)
    (data : option (gmap (list N) (list N))) (w : world) :
  ∃ qs,
    queries (generate_single_reply GEMINI_API_KEY upper E data w).2
      = queries w ++ qs
    ∧ (qs = []
       ∨ ∃ d l,
           data = Some d
           ∧ truthy (req_message d) = true
           ∧ is_Some (dict_get PERSONAS (req_persona d))
           ∧ CHAT_COLLECTIONS w !! req_chat_id d = Some l
           ∧ 1 ≤ min 3 (length l) ≤ 3
           ∧ min 3 (length l) ≤ length l
           ∧ qs = [(req_chat_id d, req_message d, min 3 (length l))]).
Proof.
  destruct (generate_single_reply_cases GEMINI_API_KEY upper E data w)
    as [(st & err & _ & ->) | (d & si & l & -> & Hmsg & Hp & Hl & H)].
  { exists []. split; [by rewrite app_nil_r | by left]. }
  cbv zeta in H.
  assert (queries (generate_single_reply GEMINI_API_KEY upper E (Some d) w).2
          = queries (retrieval E (req_chat_id d) (req_message d) 3 l w).2)
    as ->.
  { destruct H as [(n & Hn & ->) | (Hn & ->)]; simpl; [| done].
    by destruct (reply_to _ _ _). }
  unfold retrieval. destruct l as [|x l].
  - exists []. split; [by rewrite app_nil_r | by left].
  - eexists. split; [done |]. right. exists d, (x :: l).
    split_and!; eauto; cbn [length]; lia.
Qed.

End MoreInvariants.



(** ** Reading and clearing the memory *)

(** X10: [GET /memory] changes nothing.  For a known chat it answers 200 with
    one entry per record, in insertion order, each with the id, the
    message, the response, the persona and the time of its record, and
    with their number as the count; for any other chat id it answers 400.
    A failed lookup apart, the count is the number of entries listed. *)
Theorem get_memory_lists_records (c : list N) (w : world) :
  (get_memory c w).2 = w
  ∧ (∀ l, CHAT_COLLECTIONS w !! c = Some l →
          (get_memory c w).1
          = Ok (200, JMemory c (entry_of <$> l) (length l)))
  ∧ (CHAT_COLLECTIONS w !! c = None →
     (get_memory c w).1 = Ok (400, JMemoryError (u "Invalid chat ID")))
  ∧ (∀ st c' entries count,
       (get_memory c w).1 = Ok (st, JMemory c' entries count) →
       st = 200 ∧ c' = c ∧ count = length entries
       ∧ entry_id <$> entries = record_id <$> contents w c).
Proof.
  destruct (CHAT_COLLECTIONS w !! c) as [l |] eqn:Hl.
  - rewrite (get_memory_run c w l Hl). simpl. split_and!; try done.
    + by intros ? [= <-].
    + intros st c' entries count [= <- <- <- <-].
      rewrite length_fmap. split_and!; try done.
      unfold contents. rewrite Hl. simpl.
      rewrite <- list_fmap_compose. done.
  - rewrite (get_memory_unknown c w Hl). simpl. split_and!; done.
Qed.

(** X11: right after a chat has been cleared, [GET /memory] lists nothing for
    it, with count 0; and clearing it a second time is answered like the
    first and changes nothing more. *)
Theorem clear_then_read (c : list N) (w : world) :
  is_Some (CHAT_COLLECTIONS w !! c) →
  get_memory c (clear_memory c w).2
    = (Ok (200, JMemory c [] 0), (clear_memory c w).2)
  ∧ clear_memory c (clear_memory c w).2
    = ((clear_memory c w).1, (clear_memory c w).2).
Proof.
  intros [l Hl]. rewrite (clear_memory_run c w l Hl). simpl.
  assert (CHAT_COLLECTIONS (cleared c w) !! c = Some []) as Hc
    by apply lookup_insert_eq.
  split.
  - by rewrite (get_memory_run c (cleared c w) [] Hc).
  - rewrite (clear_memory_run c (cleared c w) [] Hc).
    f_equal. unfold cleared. simpl. by rewrite !insert_insert_eq.
Qed.

Lemma clear_then_read_witness :
  get_memory (u "Timo") (clear_memory (u "Timo") world_after_one).2
    = (Ok (200, JMemory (u "Timo") [] 0),
       (clear_memory (u "Timo") world_after_one).2)
  ∧ clear_memory (u "Timo") (clear_memory (u "Timo") world_after_one).2
    = ((clear_memory (u "Timo") world_after_one).1,
       (clear_memory (u "Timo") world_after_one).2).
Proof.
  apply (clear_then_read (u "Timo") world_after_one).
  exists [first_record]. vm_compute. reflexivity.
Defined.

Section ReadAfterWrite.

Variable GEMINI_API_KEY : list N.
Variable upper : list N → list N.

(** X12: after a request answered with a reply, [GET /memory] for its chat
    ends with that exchange: the stripped message, the reply as it was
    sent back, the persona, the time, and the id under the new counter
    value; and it never lists more than twenty conversations for a chat
    of a world the service can reach. *)
Theorem read_after_generate (E : env) (d : gmap (list N) (list N))
    (w w' : world) (resp : response) (t ps : list N) :
  reachable GEMINI_API_KEY upper w →
  generate_single_reply GEMINI_API_KEY upper E (Some d) w = (Ok resp, w') →
  body resp = JReply (Success t ps) →
  ∃ n entries,
    conversation_counter w !! req_chat_id d = Some n
    ∧ get_memory (req_chat_id d) w'
      = (Ok (200, JMemory (req_chat_id d) entries (length entries)), w')
    ∧ length entries ≤ 20
    ∧ last entries
      = Some {| entry_id := req_chat_id d ++ u "_" ++ u (pretty (n + 1));
                entry_user_message := req_message d;
                entry_response := t;
                entry_persona := req_persona d;
                entry_timestamp := now_isoformat E |}.
Proof.
  intros Hreach Hrun Hbody.
  pose proof (reachable_world_ok _ _ _ Hreach) as Hok.
  destruct (generate_success_inv GEMINI_API_KEY upper E d w w' resp t ps
              Hok Hrun Hbody)
    as (si & l & n & _ & _ & Hl & Hn & Hnum & _ & _ & _ & ->).
  destruct (last_stored E (req_chat_id d) (req_message d) (req_persona d)
              (req_stance d) t n l Hnum) as [Hlast Hlen].
  exists n,
    (entry_of <$> enforce_cap
                    (add_record
                       (new_record E (req_chat_id d) (req_message d)
                          (req_persona d) (req_stance d) t (n + 1)) l)).
  split; [done |].
  erewrite get_memory_run; [| unfold stored; simpl; apply lookup_insert_eq].
  rewrite !length_fmap. split_and!; [done | rewrite Hlen; lia |].
  by rewrite fmap_last, Hlast.
Qed.

End ReadAfterWrite.

Lemma read_after_generate_witness :
  ∃ n entries,
    conversation_counter initial_world !! req_chat_id pineapple = Some n
    ∧ get_memory (req_chat_id pineapple) world_after_one
      = (Ok (200, JMemory (req_chat_id pineapple) entries (length entries)),
         world_after_one)
    ∧ length entries ≤ 20
    ∧ last entries
      = Some {| entry_id :=
                  req_chat_id pineapple ++ u "_" ++ u (pretty (n + 1));
                entry_user_message := req_message pineapple;
                entry_response := u "sure thing";
                entry_persona := req_persona pineapple;
                entry_timestamp := now_isoformat (env_text (u "sure thing")) |}.
Proof.
  apply (read_after_generate sample_key ascii_upper
           (env_text (u "sure thing")) pineapple initial_world world_after_one
           {| status := 200;
              body := JReply (Success (u "sure thing") (u "The Rebel")) |}
           (u "sure thing") (u "The Rebel")).
  - apply reachable_initial.
  - vm_compute. reflexivity.
  - reflexivity.
Defined.

(** ** The persona list *)

Lemma persona_entries_Ok (names : list (list N)) :
  ∀ entries, persona_entries names = Ok entries →
  entries.*1 = names
  ∧ ∀ name description, (name, description) ∈ entries →
      dict_get PERSONA_DESCRIPTIONS name = Some description.
Proof.
  induction names as [|name names IH]; intros entries;
    cbn [persona_entries].
  - intros [= <-]. split; [done |]. intros ? ? H. inversion H.
  - destruct (dict_get PERSONA_DESCRIPTIONS name) as [descr |] eqn:Hd; [| done].
    destruct (persona_entries names) as [rest | e]; [| done].
    intros [= <-]. destruct (IH rest eq_refl) as [Hn Hrest].
    split; [by rewrite fmap_cons, Hn |].
    intros n' d' [[= -> ->] | H]%elem_of_cons; [done | by apply Hrest].
Qed.

Lemma dict_get_is_Some {A} (d : list (list N * A)) (k : list N) :
  is_Some (dict_get d k) ↔ k ∈ d.*1.
Proof.
  induction d as [|[k' v] d IH]; simpl.
  - split; [by intros [? ?] | intros H; inversion H].
  - case_decide as Hk.
    + subst. split; [intros _; left | eauto].
    + rewrite IH. split; [by right |].
      intros [? | ?]%elem_of_cons; [congruence | done].
Qed.

(** X13: [GET /personas] raises nothing: every persona of the registry has a
    description.  It lists the names of the registry in their order,
    each with its description, so that a name is listed exactly when
    [POST /generate] accepts it as a persona. *)
Theorem get_personas_lists_registry :
  ∃ entries,
    get_personas = Ok entries
    ∧ entries.*1 = PERSONAS.*1
    ∧ (∀ name, name ∈ entries.*1 ↔ is_Some (dict_get PERSONAS name))
    ∧ ∀ name description, (name, description) ∈ entries →
        dict_get PERSONA_DESCRIPTIONS name = Some description.
Proof.
  destruct get_personas as [entries | e] eqn:H.
  2:{ exfalso. vm_compute in H. discriminate H. }
  exists entries. destruct (persona_entries_Ok _ _ H) as [Hn Hd].
  split_and!; [done | done | | done].
  intros name. rewrite Hn. symmetry. apply dict_get_is_Some.
Qed.

(** ** What the payload always carries *)

Lemma contains_mid (a p b s : list N) :
  s = a ++ p ++ b → contains p s = true.
Proof. intros ->. apply contains_app. Qed.

Section Payload.

Variable upper : list N → list N.

(** X14: whatever the mode, the user content holds the user's message and
    the system prompt starts with the persona text and holds the format
    directive.  With a draft answer the user content also holds the
    draft.  Without one the system prompt holds the stance directive
    with the stance in upper case; the user content is the message alone
    when no context was retrieved, and otherwise the context, a marker
    and the message, the system prompt then ending with the note on past
    conversations. *)
Theorem payload_carries_message (si msg st mc hint : list N) :
  let p := compose_payload upper si msg st mc hint in
  contains msg (contents_text p) = true
  ∧ startswith si (systemInstruction_text p) = true
  ∧ contains format_directive (systemInstruction_text p) = true
  ∧ (truthy hint = true → contains hint (contents_text p) = true)
  ∧ (truthy hint = false →
     contains (u "Your response MUST " ++ upper st
               ++ u " with the user's message. ")
       (systemInstruction_text p) = true
     ∧ (truthy mc = false → contents_text p = msg)
     ∧ (truthy mc = true →
        contents_text p = mc ++ u "Current message: " ++ msg
        ∧ ∃ a, systemInstruction_text p = a ++ memory_note)).
Proof.
  intros p. subst p. unfold compose_payload.
  cbn [contents_text systemInstruction_text].
  unfold user_message_with_context, system_prompt, stance_instruction,
    memory_instruction. cbv zeta.
  destruct (truthy hint) eqn:Hh.
  - split_and!; try done.
    + by apply (contains_mid (u "Incoming message: ") _
                  (nl ++ nl ++ u "User's draft response: " ++ hint ++ nl
                   ++ nl ++ task_instruction hint)).
    + apply startswith_app.
    + apply (contains_mid
               (si ++ u " " ++ length_instruction (length (split msg))) _ []).
      by rewrite app_nil_r, <- !(assoc_L (++)).
    + intros _.
      apply (contains_mid
               (u "Incoming message: " ++ msg ++ nl ++ nl
                ++ u "User's draft response: ") _
               (nl ++ nl ++ task_instruction hint)).
      by rewrite <- !(assoc_L (++)).
  - split_and!; try done.
    + destruct (truthy mc).
      * apply (contains_mid (mc ++ u "Current message: ") _ []).
        by rewrite app_nil_r, <- !(assoc_L (++)).
      * apply (contains_mid [] _ []). by rewrite app_nil_r.
    + apply startswith_app.
    + apply (contains_mid
               (si ++ u " " ++ u "Your response MUST " ++ upper st
                ++ u " with the user's message. "
                ++ length_instruction (length (split msg))) _
               (u " " ++ (if truthy mc then memory_note else []))).
      by rewrite <- !(assoc_L (++)).
    + intros _. split_and!.
      * apply (contains_mid (si ++ u " ") _
                 (length_instruction (length (split msg)) ++ format_directive
                  ++ u " " ++ (if truthy mc then memory_note else []))).
        by rewrite <- !(assoc_L (++)).
      * by intros ->.
      * intros ->. split; [done |].
        eexists. by rewrite !(assoc_L (++)).
Qed.

End Payload.

(** ** The context block *)

Lemma format_hits_lookup (hits : list (list N * metadata)) :
  ∀ k i doc md,
  hits !! i = Some (doc, md) →
  ∃ a b, format_hits k hits = a ++ format_hit (k + i) doc md ++ b.
Proof.
  induction hits as [|[doc' md'] hits IH]; intros k i doc md Hi; [done |].
  destruct i as [|i]; simpl in Hi.
  - injection Hi as -> ->. exists [], (format_hits (S k) hits).
    cbn [format_hits]. by rewrite Nat.add_0_r.
  - destruct (IH (S k) i doc md Hi) as (a & b & Hab).
    exists (format_hit k doc' md' ++ a), b. cbn [format_hits]. rewrite Hab.
    replace (S k + i) with (k + S i) by lia.
    by rewrite <- !(assoc_L (++)).
Qed.

(** X15: when the similarity query answers with documents, the context that
    retrieval returns starts with the header, ends with the footer, and
    holds, for every document that has its metadata, the numbered entry
    with the past question and the reply, numbers starting at 1. *)
Theorem context_lists_every_hit (E : env) (c msg : list N) (k : nat)
    (w : world) (l : list conversation)
    (docs : list (list N)) (ds : list (list (list N)))
    (mds : list metadata) (ms : list (list metadata)) :
  CHAT_COLLECTIONS w !! c = Some l →
  l ≠ [] →
  similarity E l msg (min k (length l))
    = Ok {| documents := docs :: ds; metadatas := mds :: ms |} →
  docs ≠ [] →
  ∃ context w',
    retrieve_relevant_context_rag E c msg k w = (Ok context, w')
    ∧ startswith context_header context = true
    ∧ (∃ a, context = a ++ context_footer)
    ∧ ∀ i doc md,
        zip docs mds !! i = Some (doc, md) →
        contains
          (nl ++ u (pretty (S i)) ++ u ". Past question: " ++ dq ++ doc ++ dq
           ++ nl ++ u "   You (" ++ md_persona md ++ u ") replied: " ++ dq
           ++ md_response md ++ dq ++ nl)
          context = true.
Proof.
  intros Hl Hne Hs Hd.
  rewrite (retrieve_relevant_context_rag_run E c msg k w l Hl).
  eexists _, _. split; [done |].
  unfold retrieval. destruct l as [|x l]; [done |].
  cbn [fst]. rewrite Hs. unfold context_of. cbn [documents metadatas].
  destruct docs as [|d0 docs]; [done |].
  split_and!.
  - apply startswith_app.
  - eexists. by rewrite (assoc_L (++)).
  - intros i doc md Hi.
    destruct (format_hits_lookup _ 1 i doc md Hi) as (a & b & Hab).
    apply (contains_mid (context_header ++ a) _ (b ++ context_footer)).
    rewrite Hab. unfold format_hit. cbn [Nat.add].
    by rewrite <- !(assoc_L (++)).
Qed.

Lemma context_lists_every_hit_witness :
  ∃ context w',
    retrieve_relevant_context_rag (env_text (u "sure thing")) (u "Timo")
      (u "hello") 3 world_after_one = (Ok context, w')
    ∧ startswith context_header context = true
    ∧ (∃ a, context = a ++ context_footer)
    ∧ ∀ i doc md,
        zip [record_document first_record] [record_metadata first_record]
          !! i = Some (doc, md) →
        contains
          (nl ++ u (pretty (S i)) ++ u ". Past question: " ++ dq ++ doc ++ dq
           ++ nl ++ u "   You (" ++ md_persona md ++ u ") replied: " ++ dq
           ++ md_response md ++ dq ++ nl)
          context = true.
Proof.
  apply (context_lists_every_hit (env_text (u "sure thing")) (u "Timo")
           (u "hello") 3 world_after_one [first_record]
           [record_document first_record] []
           [record_metadata first_record] []).
  - vm_compute. reflexivity.
  - discriminate.
  - reflexivity.
  - discriminate.
Defined.
